(** * Medusa: workflow transforms, price-list repository and the
      step-signalling endpoint

    A shallow embedding of
    - the create-cart workflow and [prepareCustomLineItemData]
      (core-flows; the transforms are pure functions over JavaScript
      values),
    - [PriceListRepository] (pricing module; a state-and-error monad over
      a heap of objects and the calls made on entity managers),
    - the OpenAPI operation of
      [POST /admin/workflows-executions/{workflow_id}/steps/success],
    - the orchestration core the specification describes (graph builder,
      transaction engine, execution log), which the repository sources at
      hand only call into. *)

From stdpp Require Import gmap strings list fin_maps pretty.
From Stdlib Require Import ZArith Relations Ascii.

Set Warnings "-register-all".
Open Scope Z_scope.
Open Scope string_scope.
Open Scope list_scope.

(* ================================================================== *)
(** * Part I: definitions *)
(* ================================================================== *)

(** ** JavaScript values and the operators the sources use *)

Module JS.

(** Values are immutable trees here: none of the transforms below depends
    on object identity.  Numbers are integers (no arithmetic is done on
    them; only truthiness and equality are observed). *)
Inductive value : Type :=
  | VUndefined
  | VNull
  | VBool (b : bool)
  | VNum (n : Z)
  | VStr (s : string)
  | VArr (l : list value)
  | VObj (o : gmap string value).

(** [MedusaError.Types] members thrown by the modelled sources. *)
Inductive MedusaErrorType := NOT_FOUND | INVALID_DATA.

Inductive error :=
  | TypeError (msg : string)
  | MedusaError (type : MedusaErrorType) (message : string).

Inductive result (A : Type) :=
  | Ok (a : A)
  | Throw (e : error).
Arguments Ok {A} a.
Arguments Throw {A} e.

#[global] Instance result_ret : MRet result := @Ok.
#[global] Instance result_bind : MBind result := λ A B f m,
  match m with Ok a => f a | Throw e => Throw e end.

Fixpoint mapM {A B} (f : A → result B) (l : list A) : result (list B) :=
  match l with
  | [] => Ok []
  | x :: l' => y ← f x; ys ← mapM f l'; Ok (y :: ys)
  end.

(** [ToBoolean]. *)
Definition truthy (v : value) : bool :=
  match v with
  | VUndefined | VNull => false
  | VBool b => b
  | VNum n => negb (n =? 0)%Z
  | VStr s => match s with EmptyString => false | _ => true end
  | VArr _ | VObj _ => true
  end.

Definition nullish (v : value) : bool :=
  match v with VUndefined | VNull => true | _ => false end.

(** [a ?? b] once both operands are values; where the right operand can
    throw, the callers below branch on [nullish] so that it is only
    evaluated when needed. *)
Definition coalesce (a b : value) : value := if nullish a then b else a.

(** [a === b] on primitives.  Two objects (or arrays) are equal only when
    they are the same object, which this value model does not track: the
    comparison is [false] on them. *)
Definition strict_eq (a b : value) : bool :=
  match a, b with
  | VUndefined, VUndefined | VNull, VNull => true
  | VBool x, VBool y => bool_decide (x = y)
  | VNum x, VNum y => bool_decide (x = y)
  | VStr x, VStr y => bool_decide (x = y)
  | _, _ => false
  end.

Definition type_name (v : value) : string :=
  match v with VNull => "null" | _ => "undefined" end.

Definition cannot_read (v : value) (k : string) : error :=
  TypeError ("Cannot read properties of " +:+ type_name v +:+
             " (reading '" +:+ k +:+ "')").

Definition not_a_function (k : string) : error :=
  TypeError (k +:+ " is not a function").

Definition chars (s : string) : list value :=
  (λ c, VStr (String c EmptyString)) <$> String.list_ascii_of_string s.

(** [v.k] for a static property name. *)
Definition get (v : value) (k : string) : result value :=
  match v with
  | VUndefined | VNull => Throw (cannot_read v k)
  | VObj o => Ok (default VUndefined (o !! k))
  | VArr l => Ok (if bool_decide (k = "length")
                  then VNum (Z.of_nat (length l)) else VUndefined)
  | VStr s => Ok (if bool_decide (k = "length")
                  then VNum (Z.of_nat (String.length s)) else VUndefined)
  | VBool _ | VNum _ => Ok VUndefined
  end.

(** Reading a field of an object, [undefined] when it is missing. *)
Definition field (o : gmap string value) (k : string) : value :=
  default VUndefined (o !! k).

(** [v?.k]. *)
Definition opt_get (v : value) (k : string) : result value :=
  if nullish v then Ok VUndefined else get v k.

(** [v[i]] for a literal index. *)
Definition get_index (v : value) (i : nat) : result value :=
  match v with
  | VUndefined | VNull => Throw (cannot_read v (pretty i))
  | VArr l => Ok (default VUndefined (l !! i))
  | VStr s => Ok (default VUndefined (chars s !! i))
  | VObj o => Ok (default VUndefined (o !! pretty i))
  | VBool _ | VNum _ => Ok VUndefined
  end.

Definition join_comma (l : list string) : string :=
  match l with
  | [] => EmptyString
  | s :: l' => foldl (λ acc t, acc +:+ "," +:+ t) s l'
  end.

(** [ToString], as used for a computed property key. *)
Fixpoint to_string (v : value) : string :=
  match v with
  | VUndefined => "undefined"
  | VNull => "null"
  | VBool b => if b then "true" else "false"
  | VNum n => pretty n
  | VStr s => s
  | VArr l =>
      join_comma (map (λ x, if nullish x then EmptyString else to_string x) l)
  | VObj _ => "[object Object]"
  end.

(** [v[k]] for a computed key. *)
Definition get_computed (v k : value) : result value :=
  match v, k with
  | VArr l, VNum n =>
      Ok (if bool_decide (0 ≤ n)%Z
          then default VUndefined (l !! Z.to_nat n) else VUndefined)
  | _, _ => get v (to_string k)
  end.

(** The receiver of an array method call [v.m(...)]. *)
Definition as_array (v : value) (m : string) : result (list value) :=
  match v with
  | VArr l => Ok l
  | VUndefined | VNull => Throw (cannot_read v m)
  | _ => Throw (not_a_function m)
  end.

(** [arr.find(cb)] with a callback that may throw. *)
Fixpoint findM (cb : value → result bool) (l : list value) : result value :=
  match l with
  | [] => Ok VUndefined
  | x :: l' => b ← cb x; if (b : bool) then Ok x else findM cb l'
  end.

(** Own enumerable properties, as copied by an object spread [{...v}]. *)
Definition own_props (v : value) : gmap string value :=
  match v with
  | VObj o => o
  | VArr l => list_to_map (imap (λ i x, (pretty i, x)) l)
  | VStr s => list_to_map (imap (λ i x, (pretty i, x)) (chars s))
  | _ => ∅
  end.

End JS.

Import JS.

(** An object literal [{ k1: v1, ..., kn: vn }] with distinct keys. *)
Definition obj (fields : list (string * value)) : value :=
  VObj (list_to_map fields).

(** ** The create-cart workflow (core-flows, [createCartWorkflow]) *)

Module CreateCart.

(** A step invocation observed during a run: the step and its input. *)
Inductive invocation := Invoked (step : string) (input : value).

Section Workflow.

(** Imported helpers whose sources are not part of the modelled files. *)
Variable isDefined : value → bool.
Variable prepareLineItemData : value → result value.
Variable productVariantsFields : value.
(** The body of a step: its output (or the error it throws) on an input. *)
Variable invoke : string → value → result value.

(** [transform({ input }, (data) =>
      (data.input.items ?? []).map((i) => i.variant_id).filter(isDefined))] *)
Definition variantIds (input : value) : result value :=
  items ← get input "items";
  l ← as_array (coalesce items (VArr [])) "map";
  ids ← mapM (λ i, get i "variant_id") l;
  Ok (VArr (filter (λ v, Is_true (isDefined v)) ids)).

(** [transform({ input, region, customerData }, ...)] giving the pricing
    context. *)
Definition pricingContext (input region customerData : value) : result value :=
  if negb (truthy region) then Throw (MedusaError NOT_FOUND "No regions found")
  else
    cc ← get input "currency_code";
    cc ← (if nullish cc then get region "currency_code" else Ok cc);
    rid ← get region "id";
    customer ← get customerData "customer";
    cid ← opt_get customer "id";
    Ok (obj [("currency_code", cc); ("region_id", rid); ("customer_id", cid)]).

(** The condition of [when({ variantIds }, ({ variantIds }) =>
    !!variantIds.length)]. *)
Definition variants_condition (data : value) : result bool :=
  ids ← get data "variantIds";
  len ← get ids "length";
  Ok (truthy len).

(** The input of the remote-query step inside the [then] branch. *)
Definition variants_query (variantIds pricingContext : value) : value :=
  obj [("entry_point", VStr "variants");
       ("fields", productVariantsFields);
       ("variables",
         obj [("id", variantIds);
              ("calculated_price", obj [("context", pricingContext)])]);
       ("throw_if_key_not_found", VBool true)].

Definition run_step (name : string) (input : value)
  : result value * list invocation :=
  (invoke name input, [Invoked name input]).

(** Modelled from the spec: the [when(...).then(...)] combinator of the
    workflows SDK is not among the sources.  Per section 4.2, the nodes of
    [fn] execute only if the condition is truthy on the resolved upstream
    values, and a skipped branch leaves the inputs of dependent nodes
    undefined. *)
Definition when_then (data : value) (cond : value → result bool)
    (fn : unit → result value * list invocation)
  : result value * list invocation :=
  match cond data with
  | Throw e => (Throw e, [])
  | Ok true => fn ()
  | Ok false => (Ok VUndefined, [])
  end.

(** [const variants = when({ variantIds }, ...).then(() =>
      useRemoteQueryStep({ ... }))] *)
Definition variants (variantIds pricingContext : value)
  : result value * list invocation :=
  when_then (obj [("variantIds", variantIds)]) variants_condition
    (λ _, run_step "useRemoteQueryStep"
            (variants_query variantIds pricingContext)).

(** [transform({ input, region, customerData, salesChannel }, ...)]: the
    cart to create, without its items. *)
Definition cartInput (input region customerData salesChannel : value)
  : result value :=
  if negb (truthy region) then Throw (MedusaError NOT_FOUND "No regions found")
  else
    cc ← get input "currency_code";
    cc ← (if nullish cc then get region "currency_code" else Ok cc);
    rid ← get region "id";
    let data_ := <["region_id" := rid]>
                   (<["currency_code" := cc]> (own_props input)) in
    customer ← get customerData "customer";
    cid ← opt_get customer "id";
    data_ ← (if truthy cid then
               customer ← get customerData "customer";
               cid ← get customer "id";
               let data_ := <["customer_id" := cid]> data_ in
               email ← opt_get input "email";
               email ← (if nullish email then
                          customer ← get customerData "customer";
                          get customer "email"
                        else Ok email);
               Ok (<["email" := email]> data_)
             else Ok data_);
    scid ← opt_get salesChannel "id";
    data_ ← (if truthy scid then
               scid ← get salesChannel "id";
               Ok (<["sales_channel_id" := scid]> data_)
             else Ok data_);
    (* If there is only one country in the region, we prepare a shipping
       address with that country's code. *)
    sa ← get input "shipping_address";
    data_ ← (if negb (truthy sa) then
               countries ← get region "countries";
               len ← get countries "length";
               if strict_eq len (VNum 1) then
                 c0 ← get_index countries 0;
                 iso ← get c0 "iso_2";
                 Ok (<["shipping_address" := obj [("country_code", iso)]]> data_)
               else Ok data_
             else Ok data_);
    Ok (VObj data_).

(** One iteration of the [map] callback of the [lineItems] transform. *)
Definition lineItem (priceSets variants item : value) : result value :=
  vs ← as_array variants "find";
  variant ← findM (λ v, vid ← get v "id";
                         ivid ← get item "variant_id";
                         Ok (strict_eq vid ivid)) vs;
  ivid ← get item "variant_id";
  variantPrice ← (if truthy ivid then
                    ivid ← get item "variant_id";
                    get_computed priceSets ivid
                  else Ok VUndefined);
  up ← get item "unit_price";
  unitPrice ← (if truthy up then Ok up
               else opt_get variantPrice "calculated_amount");
  iti ← get item "is_tax_inclusive";
  isTaxInclusive ← (if truthy iti then Ok iti
                    else opt_get variantPrice
                           "is_calculated_price_tax_inclusive");
  if negb (isDefined unitPrice) then
    Throw (MedusaError INVALID_DATA "Line item missing a unit price")
  else
    prepareLineItemData
      (obj [("item", item); ("unitPrice", unitPrice);
            ("isTaxInclusive", isTaxInclusive); ("variant", variant)]).

(** [transform({ priceSets, input, variants }, ...)] *)
Definition lineItems (priceSets input variants : value) : result value :=
  items ← get input "items";
  l ← as_array (coalesce items (VArr [])) "map";
  its ← mapM (lineItem priceSets variants) l;
  Ok (VArr its).

(** [transform({ lineItems, cartInput }, ...)] *)
Definition cartToCreate (lineItems cartInput : value) : value :=
  VObj (<["items" := lineItems]> (own_props cartInput)).

End Workflow.

(** A cart input with one custom item: a title, a quantity and a unit
    price, and no [variant_id]. *)
Definition custom_item_input : value :=
  obj [("items",
         VArr [obj [("title", VStr "Gift wrap"); ("quantity", VNum 1);
                    ("unit_price", VNum 500)]])].

(** [isDefined] as a test against [undefined]. *)
Definition not_undefined (v : value) : bool :=
  match v with VUndefined => false | _ => true end.

End CreateCart.

(** ** [prepareCustomLineItemData] (order utilities) *)

Module CustomLineItem.

Section Prepare.

(** Imported from the cart utilities; their sources are not part of the
    modelled files. *)
Variable prepareTaxLinesData : value → result value.
Variable prepareAdjustmentsData : value → result value.

(** The two commented-out fields of the source ([unit_price],
    [is_tax_inclusive]) are not part of the literal. *)
Definition prepareCustomLineItemData (data : value) : result value :=
  item ← get data "item";
  taxLines ← get data "taxLines";
  adjustments ← get data "adjustments";
  quantity ← opt_get item "quantity";
  title ← opt_get item "title";
  metadata ← opt_get item "metadata";
  let lineItem : gmap string value :=
    list_to_map [("quantity", quantity); ("title", title);
                 ("metadata", coalesce metadata (VObj ∅))] in
  lineItem ← (if truthy taxLines then
                tl ← prepareTaxLinesData taxLines;
                Ok (<["tax_lines" := tl]> lineItem)
              else Ok lineItem);
  lineItem ← (if truthy adjustments then
                adj ← prepareAdjustmentsData adjustments;
                Ok (<["adjustments" := adj]> lineItem)
              else Ok lineItem);
  Ok (VObj lineItem).

End Prepare.

End CustomLineItem.

(** ** [PriceListRepository] (pricing module) *)

Module Repo.

(** Find options are objects that the repository copies and mutates, so
    they live in a heap and are passed by reference.  Filters ([where]) and
    option values are immutable JavaScript values. *)
Definition loc := positive.

Inductive hval :=
  | HVal (v : value)
  | HRef (l : loc).

Definition hnullish (h : hval) : bool :=
  match h with HVal v => nullish v | HRef _ => false end.

(** Identity of a [SqlEntityManager]. *)
Definition manager := nat.

(** The shared [Context] of the DAL: the managers of the unit of work. *)
Record Context := mkContext {
  transactionManager : option manager;
  ctx_manager : option manager
}.

(** The default [context = {}]. *)
Definition empty_context : Context := mkContext None None.

Record PriceList := mkPriceList {
  pl_id : string;
  pl_fields : gmap string value
}.

Record UpdatePriceListDTO := mkUpdate {
  upd_id : string;
  upd_fields : gmap string value
}.

(** A call made on an entity manager.  [CFind] and [CFindAndCount] carry
    the filter, the options argument and the fields the options object
    holds when the call is made. *)
Inductive call :=
  | CFind (where_ options : hval) (seen : gmap string hval)
  | CFindAndCount (where_ options : hval) (seen : gmap string hval)
  | CNativeDelete (where_ : value)
  | CCreate (data : value)
  | CPersistAndFlush (entities : list PriceList)
  | CAssign (entity : PriceList) (data : UpdatePriceListDTO)
  | CPersist (entities : list PriceList).

(** The calls that hand entities to the manager for persistence. *)
Definition is_persist (c : call) : bool :=
  match c with CPersist _ | CPersistAndFlush _ => true | _ => false end.

Record state := mkState {
  heap : gmap loc (gmap string hval);
  calls : list (manager * call)
}.

(** Computations that read and write the state and may throw; the state
    reached when an error is thrown is kept. *)
Definition M (A : Type) : Type := state → result A * state.

#[global] Instance M_ret : MRet M := λ A a st, (Ok a, st).
#[global] Instance M_bind : MBind M := λ A B f m st,
  match m st with
  | (Ok a, st') => f a st'
  | (Throw e, st') => (Throw e, st')
  end.

Definition throw {A} (e : error) : M A := λ st, (Throw e, st).

(** The outcome of a call that leaves the state alone. *)
Definition lift {A} (r : result A) : M A := λ st, (r, st).

Definition alloc (o : gmap string hval) : M loc := λ st,
  let l := fresh (dom (heap st)) in
  (Ok l, mkState (<[l := o]> (heap st)) (calls st)).

Definition fields_of (l : loc) : M (gmap string hval) := λ st,
  (Ok (default ∅ (heap st !! l)), st).

Definition read_field (l : loc) (k : string) : M hval := λ st,
  (Ok (default (HVal VUndefined) (default ∅ (heap st !! l) !! k)), st).

Definition write_field (l : loc) (k : string) (h : hval) : M unit := λ st,
  (Ok (), mkState (<[l := <[k := h]> (default ∅ (heap st !! l))]> (heap st))
                 (calls st)).

(** [Object.assign(target, source)]: the own properties of [source] are
    written to the target object; a primitive target is boxed and the
    box discarded. *)
Definition object_assign (target : hval) (source : gmap string hval) : M unit :=
  match target with
  | HRef l => λ st,
      (Ok (), mkState (<[l := source ∪ default ∅ (heap st !! l)]> (heap st))
                     (calls st))
  | HVal v =>
      if nullish v
      then throw (TypeError "Cannot convert undefined or null to object")
      else mret ()
  end.

(** The fields an options argument holds, as the manager reads them. *)
Definition deref (h : hval) : M (gmap string hval) :=
  match h with
  | HRef l => fields_of l
  | HVal _ => mret ∅
  end.

Definition emit (m : manager) (c : call) : M unit := λ st,
  (Ok (), mkState (heap st) (calls st ++ [(m, c)])).

Fixpoint mapMM {A B} (f : A → M B) (l : list A) : M (list B) :=
  match l with
  | [] => mret []
  | x :: l' => y ← f x; ys ← mapMM f l'; mret (y :: ys)
  end.

Definition quote : string := String (Ascii.ascii_of_nat 34) EmptyString.

Definition not_found_message (id : string) : string :=
  "PriceList with id " +:+ quote +:+ id +:+ quote +:+ " not found".

(** [new Map(entries)]: a later entry replaces an earlier one with the
    same key. *)
Definition new_Map (entries : list (string * PriceList)) : gmap string PriceList :=
  foldl (λ m kv, <[kv.1 := kv.2]> m) ∅ entries.

(** [{ id: { $in: ids } }] *)
Definition id_in (ids : list string) : value :=
  obj [("id", obj [("$in", VArr (VStr <$> ids))])].

(** The fields of the find options a call works on: those of the caller's
    object, or of the default [{ where: {} }]. *)
Definition caller_fields (st : state) (fo : option loc) : gmap string hval :=
  match fo with
  | Some l => default ∅ (heap st !! l)
  | None => {["where" := HVal (VObj ∅)]}
  end.

(** The [options] of a find-options object as its type has them: absent,
    null or undefined, or a reference to an object of the heap [h]. *)
Definition options_typed (h : gmap loc (gmap string hval))
    (fields : gmap string hval) : Prop :=
  match fields !! "options" with
  | None => True
  | Some (HVal v) => nullish v = true
  | Some (HRef lo) => is_Some (h !! lo)
  end.

(** All the manager calls a computation makes are made on [m]. *)
Definition calls_on (m : manager) {A} (c : M A) : Prop :=
  ∀ st, ∃ new, calls (c st).2 = (calls st ++ new)%list ∧
               Forall (λ mc, mc.1 = m) new.

Section Repository.

(** [LoadStrategy.SELECT_IN] of the ORM. *)
Variable SELECT_IN : value.

(** What the ORM's entity manager answers: the rows of [find], the rows
    and the count of [findAndCount], the entity built by [create], which
    may throw instead, and the entity returned by [assign]. *)
Variable em_find : manager → hval → gmap string hval → list PriceList.
Variable em_findAndCount :
  manager → hval → gmap string hval → list PriceList * nat.
Variable em_create : manager → value → result PriceList.
Variable em_assign : manager → PriceList → UpdatePriceListDTO → PriceList.

(** [getActiveManager] of the base repository class, whose source is not
    part of the modelled files: from the repository's own manager and the
    context to the manager to use. *)
Variable getActiveManager : manager → Context → manager.

(** [this.manager_] *)
Variable manager_ : manager.

(** The shared prologue of [find] and [findAndCount]: the copy of the
    find options, the defaulted options and the forced strategy.  Returns
    the filter and the options to hand to the manager. *)
Definition prepare_find_options (findOptions : option loc) : M (hval * hval) :=
  fo ← match findOptions with
       | Some l => mret l
       | None => alloc {["where" := HVal (VObj ∅)]}
       end;
  fields ← fields_of fo;
  findOptions_ ← alloc fields;
  options ← read_field findOptions_ "options";
  _ ← (if hnullish options then
         o ← alloc ∅;
         write_field findOptions_ "options" (HRef o)
       else mret ());
  options ← read_field findOptions_ "options";
  _ ← object_assign options {["strategy" := HVal SELECT_IN]};
  where_ ← read_field findOptions_ "where";
  options ← read_field findOptions_ "options";
  mret (where_, options).

Definition find (findOptions : option loc) (context : option Context)
  : M (list PriceList) :=
  let manager := getActiveManager manager_ (default empty_context context) in
  '(where_, options) ← prepare_find_options findOptions;
  seen ← deref options;
  _ ← emit manager (CFind where_ options seen);
  mret (em_find manager where_ seen).

Definition findAndCount (findOptions : option loc) (context : option Context)
  : M (list PriceList * nat) :=
  let manager := getActiveManager manager_ (default empty_context context) in
  '(where_, options) ← prepare_find_options findOptions;
  seen ← deref options;
  _ ← emit manager (CFindAndCount where_ options seen);
  mret (em_findAndCount manager where_ seen).

Definition delete (ids : list string) (context : option Context) : M unit :=
  let manager := getActiveManager manager_ (default empty_context context) in
  emit manager (CNativeDelete (id_in ids)).

Definition create (data : list value) (context : option Context)
  : M (list PriceList) :=
  let manager := getActiveManager manager_ (default empty_context context) in
  priceLists ← mapMM (λ priceList,
                        _ ← emit manager (CCreate priceList);
                        lift (em_create manager priceList)) data;
  _ ← emit manager (CPersistAndFlush priceLists);
  mret priceLists.

(** The callback of [data.map(...)] in [update]. *)
Definition assign_existing (manager : manager)
    (existingPriceListMap : gmap string PriceList)
    (priceListData : UpdatePriceListDTO) : M PriceList :=
  match existingPriceListMap !! upd_id priceListData with
  | None =>
      throw (MedusaError NOT_FOUND
               (not_found_message (upd_id priceListData)))
  | Some existingPriceList =>
      _ ← emit manager (CAssign existingPriceList priceListData);
      mret (em_assign manager existingPriceList priceListData)
  end.

Definition update (data : list UpdatePriceListDTO) (context : option Context)
  : M (list PriceList) :=
  let manager := getActiveManager manager_ (default empty_context context) in
  let priceListIds := upd_id <$> data in
  fo ← alloc {["where" := HVal (id_in priceListIds)]};
  existingPriceLists ← find (Some fo) context;
  let existingPriceListMap :=
    new_Map ((λ priceList, (pl_id priceList, priceList))
               <$> existingPriceLists) in
  moneyAmounts ← mapMM (assign_existing manager existingPriceListMap) data;
  _ ← emit manager (CPersist moneyAmounts);
  mret moneyAmounts.

(** The rows [update] looks its input up in: the answer of the manager
    to [find] with the filter [{ id: { $in: ids } }] and the forced
    strategy. *)
Definition existing (data : list UpdatePriceListDTO) (context : option Context)
  : list PriceList :=
  em_find (getActiveManager manager_ (default empty_context context))
          (HVal (id_in (upd_id <$> data)))
          {["strategy" := HVal SELECT_IN]}.

(** The five operations of the repository, as one call type. *)
Inductive operation :=
  | OpFind (findOptions : option loc)
  | OpFindAndCount (findOptions : option loc)
  | OpDelete (ids : list string)
  | OpCreate (data : list value)
  | OpUpdate (data : list UpdatePriceListDTO).

(** Running an operation, forgetting its result. *)
Definition run (op : operation) (context : option Context) : M unit :=
  match op with
  | OpFind fo => _ ← find fo context; mret ()
  | OpFindAndCount fo => _ ← findAndCount fo context; mret ()
  | OpDelete ids => delete ids context
  | OpCreate data => _ ← create data context; mret ()
  | OpUpdate data => _ ← update data context; mret ()
  end.

End Repository.

(** A concrete setting: the strategy constant as the ORM spells it, a
    manager that finds no row, and the lookup of the active manager as
    the base repository does it (the transaction manager of the context,
    else its manager, else the repository's own). *)
Definition select_in : value := VStr "select-in".

Definition no_rows : manager → hval → gmap string hval → list PriceList :=
  λ _ _ _, [].

Definition no_rows_counted
  : manager → hval → gmap string hval → list PriceList * nat :=
  λ _ _ _, ([], 0%nat).

Definition assign_fields (_ : manager) (p : PriceList) (d : UpdatePriceListDTO)
  : PriceList :=
  mkPriceList (pl_id p) (upd_fields d ∪ pl_fields p).

Definition create_entity (_ : manager) (_ : value) : result PriceList :=
  Ok (mkPriceList "new" ∅).

Definition context_manager (own : manager) (c : Context) : manager :=
  default (default own (ctx_manager c)) (transactionManager c).

(** A heap where a caller holds find options whose [options] object asks
    for the joined strategy and a limit. *)
Definition caller_heap : gmap loc (gmap string hval) :=
  {[ 1%positive := {["where" := HVal (VObj ∅); "options" := HRef 2%positive]};
     2%positive := {["strategy" := HVal (VStr "joined");
                     "limit" := HVal (VNum 10)]} ]}.

End Repo.

(** ** The OpenAPI operation of the step signalling endpoint *)

Module Oas.

(** The schema keywords the operation uses. *)
Inductive schema :=
  | SAny                                   (* {} *)
  | SString                                (* type: string *)
  | SEnum (members : list string)          (* enum: [...] *)
  | SObject (required : list string) (properties : list (string * schema)).

(** [requestBody.content.application/json.schema] *)
Definition requestBody : schema :=
  SObject
    ["transaction_id"; "step_id"; "response"; "compensate_input"; "action"]
    [("transaction_id", SString);
     ("step_id", SString);
     ("response", SAny);
     ("compensate_input", SAny);
     ("action", SEnum ["invoke"; "compensate"])].

Definition required_fields (s : schema) : list string :=
  match s with SObject required _ => required | _ => [] end.

(** [responses]: status code and the referenced response component. *)
Definition responses : list (nat * string) :=
  [(400%nat, "#/components/responses/400_error");
   (401%nat, "#/components/responses/unauthorized");
   (404%nat, "#/components/responses/not_found_error");
   (409%nat, "#/components/responses/invalid_state_error");
   (422%nat, "#/components/responses/invalid_request_error");
   (500%nat, "#/components/responses/500_error")].

(** [x-authenticated: true] *)
Definition x_authenticated : bool := true.

(** Validation of a JSON value against a schema: an object must hold every
    required property, and each declared property that is present must
    satisfy its own schema. *)
Fixpoint validate (s : schema) (v : value) : bool :=
  match s with
  | SAny => true
  | SString => match v with VStr _ => true | _ => false end
  | SEnum members =>
      match v with VStr x => bool_decide (x ∈ members) | _ => false end
  | SObject required properties =>
      match v with
      | VObj o =>
          forallb (λ k, bool_decide (is_Some (o !! k))) required &&
          (fix props (ps : list (string * schema)) : bool :=
             match ps with
             | [] => true
             | (k, s') :: ps' =>
                 match o !! k with
                 | Some x => validate s' x
                 | None => true
                 end && props ps'
             end) properties
      | _ => false
      end
  end.

(** The two cases of a signal. *)
Inductive action := Invoke | Compensate.

Definition action_name (a : action) : string :=
  match a with Invoke => "invoke" | Compensate => "compensate" end.

(** The required fields as the specification words them: the payload
    field depends on the case. *)
Definition spec_required (a : action) : list string :=
  ["transaction_id"; "step_id";
   match a with Invoke => "response" | Compensate => "compensate_input" end;
   "action"].

Definition has_fields (ks : list string) (v : value) : bool :=
  match v with
  | VObj o => forallb (λ k, bool_decide (is_Some (o !! k))) ks
  | _ => false
  end.

(** A signal of the invoke case carrying the four fields the
    specification asks of that case. *)
Definition invoke_body : value :=
  obj [("transaction_id", VStr "tx_01"); ("step_id", VStr "charge");
       ("response", obj [("ok", VBool true)]); ("action", VStr "invoke")].

(** The failure responses as the specification lists them. *)
Definition spec_failure_codes : list nat :=
  [400; 404; 409; 422; 500]%nat.

End Oas.

(** ** The handler behind the endpoint and the execution log *)

Module Signal.

Inductive step_status := Pending | Success | Failed | Skipped | Compensated.

Definition terminal (s : step_status) : bool :=
  match s with Pending => false | _ => true end.

Record step_record := mkRecord {
  rec_action : Oas.action;
  rec_status : step_status;
  rec_payload : value
}.

Record store := mkStore {
  log : gmap (string * string) step_record;
  (** the steps whose outcome resumed the progression of their
      transaction, oldest first *)
  resumed : list (string * string)
}.

Definition as_string (v : value) : string :=
  match v with VStr s => s | _ => EmptyString end.

Definition body_action (body : value) : Oas.action :=
  match get body "action" with
  | Ok (VStr "compensate") => Oas.Compensate
  | _ => Oas.Invoke
  end.

Definition body_key (body : value) : string * string :=
  (as_string (default VUndefined (own_props body !! "transaction_id")),
   as_string (default VUndefined (own_props body !! "step_id"))).

Definition body_payload (body : value) : value :=
  default VUndefined
    (own_props body !! match body_action body with
                       | Oas.Invoke => "response"
                       | Oas.Compensate => "compensate_input"
                       end).

Section Handler.

(** What the specification leaves open: when a well-formed payload is
    semantically invalid for the pending record, and when the durable
    write fails. *)
Variable semantically_valid : step_record → value → bool.
Variable durable : store → bool.

(** Modelled from the spec: the route handler of the step signalling
    endpoint and the execution log are not among the sources.  Per
    sections 4.4 and 6 the handler looks up the step record by
    (transaction_id, step_id), records the reported outcome and resumes
    the progression of the transaction; it answers 400 to a malformed
    body, 404 to an unknown transaction or step, 409 when the step is
    already in a terminal state, 422 to a semantically invalid payload
    and 500 on an internal error.  The 401 answer is the one the
    operation declares for its authenticated route. *)
Definition step_success (authenticated : bool) (body : value) (st : store)
  : nat * store :=
  if Oas.x_authenticated && negb authenticated then (401%nat, st)
  else if negb (Oas.validate Oas.requestBody body) then (400%nat, st)
  else
    match log st !! body_key body with
    | None => (404%nat, st)
    | Some r =>
        if terminal (rec_status r) then (409%nat, st)
        else if negb (semantically_valid r body) then (422%nat, st)
        else if negb (durable st) then (500%nat, st)
        else
          let status' := match body_action body with
                         | Oas.Invoke => Success
                         | Oas.Compensate => Compensated
                         end in
          (200%nat,
           mkStore (<[body_key body :=
                       mkRecord (body_action body) status' (body_payload body)]>
                      (log st))
                   (resumed st ++ [body_key body]))
    end.

End Handler.

End Signal.

(** ** The transaction engine *)

Module Engine.

Inductive tx_status :=
  | PENDING | INVOKING | DONE | COMPENSATING | REVERTED | FAILED.

Inductive step_status := Pending | Success | Failed | Skipped | Compensated.

(** What a run leaves in its trace: the entry into a status, the start
    of an invoke attempt, a recorded invoke success, a compensate call
    and a failed compensation. *)
Inductive event :=
  | EEnter (s : tx_status)
  | EInvoke (step : string)
  | ESuccess (step : string)
  | ECompensate (step : string)
  | ECompensationFailed (step : string).

(** What drives the engine: the start of the run, the start of an
    invoke attempt, the outcome of the attempt in flight (which may be
    reported from outside), a false conditional, an abort request, the
    outcome of a compensate call, and the end of a phase. *)
Inductive signal :=
  | Start
  | InvokeStarted (step : string)
  | InvokeSucceeded (step : string)
  | InvokeFailed (step : string)
  | Skip (step : string)
  | Abort
  | CompensateSettled (step : string) (ok : bool)
  | Finish.

(** How a step can be reversed (sections 3, 4.1 and 4.3): it has a
    compensate function, or it is declared non-compensable (an event
    emission, section 6), or it must be reversed and has no compensate
    function. *)
Inductive reversal := Handler | NonCompensable | NoHandler.

(** A workflow definition: its steps, their dependencies, their retry
    policy and their reversal. *)
Record workflow := mkWorkflow {
  wf_steps : list string;
  deps : string → list string;
  max_retries : string → nat;
  required : string → bool;
  reversal_of : string → reversal
}.

Record tx := mkTx {
  status : tx_status;
  steps : gmap string step_status;
  attempts : gmap string nat;
  (** the steps whose invoke attempt is in flight *)
  in_flight : list string;
  (** a required step exhausted its retries, or an abort was requested:
      no step is started any more *)
  stopping : bool;
  (** the steps that recorded invoke success, last success first *)
  completed : list string;
  (** the compensations still to attempt *)
  queue : list string;
  trace : list event
}.

Definition init : tx := mkTx PENDING ∅ ∅ [] false [] [] [].

Definition status_of (t : tx) (s : string) : step_status :=
  default Pending (steps t !! s).

Definition attempts_of (t : tx) (s : string) : nat :=
  default 0%nat (attempts t !! s).

Definition resolved (t : tx) (s : string) : bool :=
  match status_of t s with Success | Skipped => true | _ => false end.

Definition pending (t : tx) (s : string) : bool :=
  match status_of t s with Pending => true | _ => false end.

Definition without (s : string) (l : list string) : list string :=
  filter (λ x, x ≠ s) l.

Section Run.

Variable wf : workflow.

(** A step may start once it is pending, not in flight, and all its
    upstream dependencies are resolved (succeeded, or skipped). *)
Definition ready (t : tx) (s : string) : bool :=
  bool_decide (s ∈ wf_steps wf) && pending t s &&
  bool_decide (s ∉ in_flight t) &&
  forallb (resolved t) (deps wf s).

(** The steps the reverse sweep has to reverse. *)
Definition to_reverse (s : string) : bool :=
  match reversal_of wf s with NonCompensable => false | _ => true end.

Definition has_handler (s : string) : bool :=
  match reversal_of wf s with Handler => true | _ => false end.

(** The safe checkpoint of section 5: a transaction that is stopping
    enters COMPENSATING once no attempt is in flight; the succeeded
    steps that have something to reverse are queued, last success
    first. *)
Definition checkpoint (t : tx) : tx :=
  if stopping t && bool_decide (in_flight t = []) then
    mkTx COMPENSATING (steps t) (attempts t) [] true (completed t)
         (filter (λ s, Is_true (to_reverse s)) (completed t))
         (trace t ++ [EEnter COMPENSATING])
  else t.

(** Modelled from the spec: the transaction engine of the workflows SDK is
    not among the sources.  Sections 4.1, 4.3 and 5: PENDING to INVOKING
    on the first attempt; within INVOKING an attempt of a step starts
    once its dependencies are resolved, and settles later with success
    or failure; a failed attempt may be retried up to the step's
    maximum, and the exhaustion of a required step's retries, or an
    abort, stops the transaction: no attempt starts any more, the
    attempts in flight are left to settle, and then the transaction
    enters COMPENSATING.  There the succeeded steps are compensated
    last-succeeded-first, those declared non-compensable apart; a
    compensate call signals success or a terminal failure, which is
    recorded without stopping the sweep.  REVERTED once all
    compensations were attempted; FAILED when the next step to reverse
    has no compensate function; DONE once all required steps are
    resolved. *)
Definition engine_step (t : tx) (sig : signal) : option tx :=
  match sig, status t with
  | Start, PENDING =>
      Some (mkTx INVOKING (steps t) (attempts t) (in_flight t) (stopping t)
                 (completed t) (queue t) (trace t ++ [EEnter INVOKING]))
  | InvokeStarted s, INVOKING =>
      if negb (stopping t) && ready t s then
        Some (mkTx INVOKING (steps t) (attempts t) (s :: in_flight t)
                   (stopping t) (completed t) (queue t)
                   (trace t ++ [EInvoke s]))
      else None
  | InvokeSucceeded s, INVOKING =>
      if bool_decide (s ∈ in_flight t) then
        Some (checkpoint
                (mkTx INVOKING (<[s := Success]> (steps t))
                      (<[s := S (attempts_of t s)]> (attempts t))
                      (without s (in_flight t)) (stopping t)
                      (s :: completed t) (queue t)
                      (trace t ++ [ESuccess s])))
      else None
  | InvokeFailed s, INVOKING =>
      if bool_decide (s ∈ in_flight t) then
        let attempts' := <[s := S (attempts_of t s)]> (attempts t) in
        if (attempts_of t s <? max_retries wf s)%nat then
          Some (checkpoint
                  (mkTx INVOKING (steps t) attempts'
                        (without s (in_flight t)) (stopping t)
                        (completed t) (queue t) (trace t)))
        else
          Some (checkpoint
                  (mkTx INVOKING (<[s := Failed]> (steps t)) attempts'
                        (without s (in_flight t))
                        (stopping t || required wf s)
                        (completed t) (queue t) (trace t)))
      else None
  | Skip s, INVOKING =>
      if negb (stopping t) && ready t s then
        Some (mkTx INVOKING (<[s := Skipped]> (steps t)) (attempts t)
                   (in_flight t) (stopping t) (completed t) (queue t)
                   (trace t))
      else None
  | Abort, INVOKING =>
      Some (checkpoint
              (mkTx INVOKING (steps t) (attempts t) (in_flight t) true
                    (completed t) (queue t) (trace t)))
  | CompensateSettled s ok, COMPENSATING =>
      match queue t with
      | s' :: q =>
          if bool_decide (s = s') && has_handler s then
            Some (mkTx COMPENSATING
                       (if ok then <[s := Compensated]> (steps t) else steps t)
                       (attempts t) (in_flight t) (stopping t)
                       (completed t) q
                       (trace t ++ ECompensate s ::
                          (if ok then [] else [ECompensationFailed s])))
          else None
      | [] => None
      end
  | Finish, INVOKING =>
      if negb (stopping t) && bool_decide (in_flight t = []) &&
         forallb (λ s, negb (required wf s) || resolved t s) (wf_steps wf)
      then Some (mkTx DONE (steps t) (attempts t) (in_flight t) (stopping t)
                      (completed t) (queue t) (trace t ++ [EEnter DONE]))
      else None
  | Finish, COMPENSATING =>
      match queue t with
      | [] => Some (mkTx REVERTED (steps t) (attempts t) (in_flight t)
                         (stopping t) (completed t) []
                         (trace t ++ [EEnter REVERTED]))
      | s :: _ =>
          if has_handler s then None
          else Some (mkTx FAILED (steps t) (attempts t) (in_flight t)
                          (stopping t) (completed t) (queue t)
                          (trace t ++ [EEnter FAILED]))
      end
  | _, _ => None
  end.

(** A run: the signals are applied in order; a signal the engine cannot
    accept stops the run. *)
Fixpoint run (t : tx) (sigs : list signal) : option tx :=
  match sigs with
  | [] => Some t
  | sig :: sigs' =>
      match engine_step t sig with
      | Some t' => run t' sigs'
      | None => None
      end
  end.

Definition reachable (t : tx) : Prop := ∃ sigs, run init sigs = Some t.

(** The attempts in flight settle, each as [outcome] gives. *)
Definition settle (outcome : string → bool) (l : list string) : list signal :=
  (λ s, if outcome s then InvokeSucceeded s else InvokeFailed s) <$> l.

(** The reverse sweep over a queue: one compensate call per queued step,
    whose outcome [ok] gives, then the end of the phase. *)
Definition sweep (ok : string → bool) (q : list string) : list signal :=
  ((λ s, CompensateSettled s (ok s)) <$> q) ++ [Finish].

End Run.

(** Projections of a trace. *)
Definition successes (tr : list event) : list string :=
  omap (λ e, match e with ESuccess s => Some s | _ => None end) tr.

Definition compensations (tr : list event) : list string :=
  omap (λ e, match e with ECompensate s => Some s | _ => None end) tr.

Definition invokes (tr : list event) : list string :=
  omap (λ e, match e with EInvoke s => Some s | _ => None end) tr.

(** The statuses of the reverse sweep and after. *)
Definition sweeping (st : tx_status) : bool :=
  match st with COMPENSATING | REVERTED | FAILED => true | _ => false end.

(** A trace in which the transaction entered COMPENSATING: no compensate
    call before the entry, no invoke attempt and no invoke success
    after it. *)
Definition entered (tr : list event) : Prop :=
  ∃ pre post,
    tr = pre ++ EEnter COMPENSATING :: post ∧
    compensations pre = [] ∧ successes post = [] ∧ invokes post = [].

(** What holds of every transaction a run reaches, the checkpoint
    apart. *)
Record inv0 (wf : workflow) (t : tx) : Prop := mkInv0 {
  inv_completed : completed t = reverse (successes (trace t));
  inv_nodup : NoDup (completed t);
  inv_done : ∀ s, s ∈ completed t →
                  status_of t s = Success ∨ status_of t s = Compensated;
  inv_flight : ∀ s, s ∈ in_flight t → status_of t s = Pending;
  inv_flight_nodup : NoDup (in_flight t);
  inv_pending : status t = PENDING → stopping t = false;
  inv_early : sweeping (status t) = false → compensations (trace t) = [];
  inv_sweep : sweeping (status t) = true →
              in_flight t = [] ∧
              compensations (trace t) ++ queue t
              = filter (λ s, Is_true (to_reverse wf s)) (completed t) ∧
              entered (trace t);
  inv_reverted : status t = REVERTED → queue t = []
}.

(** With the checkpoint: a stopping transaction that is still invoking
    has an attempt in flight. *)
Definition inv (wf : workflow) (t : tx) : Prop :=
  inv0 wf t ∧
  (status t = INVOKING → stopping t = true → in_flight t ≠ []).

(** The three-step workflow of the specification's test: step 2 depends
    on step 1 and step 3 on step 2; one retry each, each with a
    compensate function. *)
Definition three_steps : workflow :=
  mkWorkflow ["step1"; "step2"; "step3"]
    (λ s, if bool_decide (s = "step2") then ["step1"]
          else if bool_decide (s = "step3") then ["step2"] else [])
    (λ _, 1%nat) (λ _, true) (λ _, Handler).

(** The run of that test up to the second attempt of step 2: step 1
    succeeded, step 2 failed once and its retry is in flight. *)
Definition step2_retrying : tx :=
  default init
    (run three_steps init
         [Start; InvokeStarted "step1"; InvokeSucceeded "step1";
          InvokeStarted "step2"; InvokeFailed "step2";
          InvokeStarted "step2"]).

(** A workflow that emits an event, a step with no compensate action
    (section 6), and then charges, without retry. *)
Definition event_then_charge : workflow :=
  mkWorkflow ["emit"; "charge"]
    (λ s, if bool_decide (s = "charge") then ["emit"] else [])
    (λ _, 0%nat) (λ _, true)
    (λ s, if bool_decide (s = "emit") then NonCompensable else Handler).

End Engine.

(** ** The data-flow graph builder *)

Module Graph.

Inductive node_kind := KStep | KTransform | KWhen | KSubWorkflow | KHook.

(** A composition call: the name its output is bound to (or the callee,
    when the output is dropped), its kind, and the upstream outputs its
    arguments read.  The workflow input is not a node. *)
Record node := mkNode {
  name : string;
  kind : node_kind;
  reads : list string
}.

(** An argument of [parallelize(...)]: a call written inline in the
    argument list, as in both workflows of the sources, or the output of
    an earlier call, passed by name. *)
Inductive arg :=
  | Inline (n : node)
  | Output (x : string).

(** A statement of a workflow body: a single call, or one
    [parallelize(...)].  The outputs of the inline calls of the latter
    are bound together by the destructuring of its result, so none of
    them is in scope of another. *)
Inductive stmt :=
  | Single (n : node)
  | Parallelize (args : list arg).

(** The calls a statement makes. *)
Definition calls_of (s : stmt) : list node :=
  match s with
  | Single n => [n]
  | Parallelize args =>
      omap (λ a, match a with Inline n => Some n | Output _ => None end) args
  end.

Definition names_of (s : stmt) : list string := name <$> calls_of s.

(** The outputs a [parallelize(...)] is given that were bound before. *)
Definition outputs_of (s : stmt) : list string :=
  match s with
  | Single _ => []
  | Parallelize args =>
      omap (λ a, match a with Output x => Some x | Inline _ => None end) args
  end.

Definition body := list stmt.

(** The body of [createCartWorkflow], call by call. *)
Definition createCartWorkflow : body :=
  [ Single (mkNode "variantIds" KTransform []);
    Parallelize
      [ Inline (mkNode "salesChannel" KStep []);   (* findSalesChannelStep *)
        Inline (mkNode "region" KStep []);         (* findOneOrAnyRegionStep *)
        Inline (mkNode "customerData" KStep []) ]; (* findOrCreateCustomerStep *)
    Single (mkNode "pricingContext" KTransform ["region"; "customerData"]);
    Single (mkNode "variants" KWhen ["variantIds"; "pricingContext"]);
    Single (mkNode "validateVariantPricesStep" KStep ["variants"]);
    Single (mkNode "confirmVariantInventoryWorkflow" KSubWorkflow
              ["salesChannel"; "variants"]);
    Single (mkNode "priceSets" KStep ["variantIds"; "pricingContext"]);
    Single (mkNode "cartInput" KTransform
              ["region"; "customerData"; "salesChannel"]);
    Single (mkNode "lineItems" KTransform ["priceSets"; "variants"]);
    Single (mkNode "cartToCreate" KTransform ["lineItems"; "cartInput"]);
    Single (mkNode "carts" KStep ["cartToCreate"]);
    Single (mkNode "cart" KTransform ["carts"]);
    Single (mkNode "updateTaxLinesWorkflow" KSubWorkflow ["cart"]);
    Single (mkNode "updateCartPromotionsWorkflow" KSubWorkflow ["cart"]);
    Parallelize
      [ Inline (mkNode "refreshPaymentCollectionForCartWorkflow" KSubWorkflow
                  ["cart"]);
        Inline (mkNode "emitEventStep" KStep ["cart"]) ];
    Single (mkNode "cartCreated" KHook ["cart"]) ].

(** A body that hands [parallelize] the outputs of two earlier calls,
    the second of which reads the first. *)
Definition dependent_parallel : body :=
  [ Single (mkNode "reserve" KStep []);
    Single (mkNode "charge" KStep ["reserve"]);
    Parallelize [Output "reserve"; Output "charge"] ].

(** Scoping of a body, as JavaScript's [const] bindings give it: a call
    reads only outputs bound by earlier statements, [parallelize] is
    handed only such outputs, and no name is bound twice. *)
Fixpoint well_scoped (bound : list string) (b : body) : bool :=
  match b with
  | [] => true
  | s :: b' =>
      forallb (λ n, forallb (λ r, bool_decide (r ∈ bound)) (reads n))
              (calls_of s) &&
      forallb (λ x, bool_decide (x ∈ bound)) (outputs_of s) &&
      forallb (λ x, bool_decide (x ∉ bound)) (names_of s) &&
      bool_decide (NoDup (names_of s)) &&
      well_scoped (names_of s ++ bound) b'
  end.

Record plan := mkPlan {
  plan_nodes : list string;
  plan_edges : list (string * string)
}.

Definition node_edges (n : node) : list (string * string) :=
  (λ r, (r, name n)) <$> reads n.

(** Modelled from the spec: the graph builder of the workflows SDK is not
    among the sources.  Section 4.2: the plan has one node per composition
    call and an edge for each upstream output a node reads;
    [parallelize] declares no ordering dependency, so it adds no node
    and no edge of its own. *)
Definition build (b : body) : plan :=
  let calls := b ≫= calls_of in
  mkPlan (name <$> calls) (calls ≫= node_edges).

(** The composition calls of a body, stated on the body itself: the
    single calls and the calls written inline in a [parallelize]. *)
Inductive call_in (b : body) : node → Prop :=
  | call_single n : Single n ∈ b → call_in b n
  | call_inline n args : Parallelize args ∈ b → Inline n ∈ args → call_in b n.

(** A data dependency of a body: the call bound to [v] reads the output
    [u]. *)
Definition reads_output (b : body) (u v : string) : Prop :=
  ∃ n, call_in b n ∧ name n = v ∧ u ∈ reads n.

Definition edge (p : plan) (u v : string) : Prop := (u, v) ∈ plan_edges p.

(** An ordering dependency: a non-empty chain of edges. *)
Definition depends (p : plan) : relation string := clos_trans _ (edge p).

(** The position of the statement that binds a name. *)
Fixpoint level (b : body) (x : string) : nat :=
  match b with
  | [] => 0
  | s :: b' => if bool_decide (x ∈ names_of s) then 0 else S (level b' x)
  end.

End Graph.

(** ** The add-order-line-items workflow (core-flows,
       [addOrderLineItemsWorkflow]) *)

Module AddLineItems.

Section Workflow.

(** Imported from the cart utilities; its source is not part of the
    modelled files. *)
Variable prepareLineItemData : value → result value.

(** [transform({ input }, (data) =>
      (data.input.items ?? []).map((item) => item.variant_id)
        .filter(Boolean))] *)
Definition variantIds (input : value) : result value :=
  items ← get input "items";
  l ← as_array (coalesce items (VArr [])) "map";
  ids ← mapM (λ item, get item "variant_id") l;
  Ok (VArr (filter (λ v, Is_true (truthy v)) ids)).

(** [transform({ input, region, customerData, order }, ...)] giving the
    pricing context; the callback does not read [input]. *)
Definition pricingContext (region customerData order : value) : result value :=
  if negb (truthy region) then Throw (MedusaError NOT_FOUND "Region not found")
  else
    cc ← get order "currency_code";
    cc ← (if nullish cc then get region "currency_code" else Ok cc);
    rid ← get region "id";
    customer ← get customerData "customer";
    cid ← opt_get customer "id";
    Ok (obj [("currency_code", cc); ("region_id", rid); ("customer_id", cid)]).

(** The object the [map] callback of [prepareLineItems] hands to
    [prepareLineItemData]. *)
Definition prepareLineItem_input (variants item : value) : result value :=
  vs ← as_array variants "find";
  variant ← findM (λ v, vid ← get v "id";
                         ivid ← get item "variant_id";
                         Ok (strict_eq vid ivid)) vs;
  tl ← get item "tax_lines";
  adj ← get item "adjustments";
  Ok (obj [("variant", variant);
           ("taxLines", if truthy tl then tl else VArr []);
           ("adjustments", if truthy adj then adj else VArr [])]).

(** [function prepareLineItems(data)], on [data.input] and
    [data.variants]. *)
Definition prepareLineItems (input variants : value) : result value :=
  items ← get input "items";
  l ← as_array (coalesce items (VArr [])) "map";
  its ← mapM (λ item, arg ← prepareLineItem_input variants item;
                      prepareLineItemData arg) l;
  Ok (VArr its).

End Workflow.

End AddLineItems.

(** ** The documented sample of the step signalling endpoint *)

Module OasSample.

(** The body of the cURL sample under [x-codeSamples]. *)
Definition sample_body : value :=
  obj [("transaction_id", VStr "{value}"); ("step_id", VStr "{value}")].

End OasSample.

(** ** A manager with one price list *)

Module RepoSample.

(** A manager whose [find] answers with the one row [pl_1]. *)
Definition one_row
  : Repo.manager → Repo.hval → gmap string Repo.hval → list Repo.PriceList :=
  λ _ _ _, [Repo.mkPriceList "pl_1" ∅].

End RepoSample.

(** ** Errors by kind *)

Definition is_TypeError (e : error) : Prop :=
  match e with TypeError _ => True | MedusaError _ _ => False end.

(** The fields the [cartInput] transform may write. *)
Definition cartInput_keys : list string :=
  ["currency_code"; "region_id"; "customer_id"; "email"; "sales_channel_id";
   "shipping_address"].

(* ================================================================== *)
(** * Part II: properties *)
(* ================================================================== *)

(** ** Facts about the JavaScript operators *)

Ltac js_simpl :=
  cbn [mbind mret result_bind result_ret truthy nullish negb andb
       default from_option id].

Section JSFacts.

Lemma get_nullish_throws v k :
  nullish v = true → get v k = Throw (cannot_read v k).
Proof. by destruct v. Qed.

Lemma get_not_nullish v k :
  nullish v = false → ∃ x, get v k = Ok x.
Proof. destruct v; simpl; try done; eauto. Qed.

Lemma opt_get_total v k : ∃ x, opt_get v k = Ok x.
Proof.
  unfold opt_get. destruct (nullish v) eqn:Hn; [eauto|].
  by apply get_not_nullish.
Qed.

Lemma get_obj o k : get (VObj o) k = Ok (default VUndefined (o !! k)).
Proof. done. Qed.

Lemma opt_get_obj o k : opt_get (VObj o) k = Ok (default VUndefined (o !! k)).
Proof. done. Qed.

Lemma truthy_not_nullish v : truthy v = true → nullish v = false.
Proof. by destruct v. Qed.

Lemma bind_Ok {A B} (m : result A) (f : A → result B) b :
  m ≫= f = Ok b → ∃ a, m = Ok a ∧ f a = Ok b.
Proof. destruct m; simpl; [eauto|done]. Qed.

Lemma bind_Throw {A B} (m : result A) (f : A → result B) e :
  m ≫= f = Throw e → m = Throw e ∨ ∃ a, m = Ok a ∧ f a = Throw e.
Proof. destruct m; simpl; [eauto|]. intros [= ->]. by left. Qed.

End JSFacts.

(** ** [prepareCustomLineItemData] *)

Section CustomLineItemFacts.

Import CustomLineItem.

Variable prepareTaxLinesData : value → result value.
Variable prepareAdjustmentsData : value → result value.

Abbreviation prepare :=
  (prepareCustomLineItemData prepareTaxLinesData prepareAdjustmentsData).

(** C9. Whatever the input, an object returned by
    [prepareCustomLineItemData] has no [unit_price] and no
    [is_tax_inclusive] field; its [metadata] is the item's metadata, or
    the empty object when that is null or undefined (for an item that is
    an object: when the item has no [metadata] field, or a null or
    undefined one); it has a [tax_lines]
    field exactly when the [taxLines] argument is truthy and an
    [adjustments] field exactly when the [adjustments] argument is truthy.
    The call throws only when [data] itself is null or undefined, or when
    one of the two imported helpers throws on a truthy argument. *)
Theorem prepareCustomLineItemData_fields (data : value) :
  match prepare data with
  | Ok v =>
      ∃ o item taxLines adjustments metadata,
        v = VObj o ∧
        get data "item" = Ok item ∧
        get data "taxLines" = Ok taxLines ∧
        get data "adjustments" = Ok adjustments ∧
        opt_get item "metadata" = Ok metadata ∧
        o !! "unit_price" = None ∧
        o !! "is_tax_inclusive" = None ∧
        o !! "metadata"
        = Some (match metadata with
                | VUndefined | VNull => VObj ∅
                | _ => metadata
                end) ∧
        (∀ fields, item = VObj fields →
           o !! "metadata"
           = Some (match fields !! "metadata" with
                   | None | Some VUndefined | Some VNull => VObj ∅
                   | Some m => m
                   end)) ∧
        (is_Some (o !! "tax_lines") ↔ truthy taxLines = true) ∧
        (is_Some (o !! "adjustments") ↔ truthy adjustments = true)
  | Throw e =>
      nullish data = true ∨
      (∃ taxLines, get data "taxLines" = Ok taxLines ∧
                   truthy taxLines = true ∧
                   prepareTaxLinesData taxLines = Throw e) ∨
      (∃ adjustments, get data "adjustments" = Ok adjustments ∧
                      truthy adjustments = true ∧
                      prepareAdjustmentsData adjustments = Throw e)
  end.
Proof.
  destruct (nullish data) eqn:Hn.
  { unfold prepareCustomLineItemData.
    rewrite (get_nullish_throws data "item" Hn). simpl. by left. }
  unfold prepareCustomLineItemData.
  destruct (get_not_nullish data "item" Hn) as [item Hitem].
  destruct (get_not_nullish data "taxLines" Hn) as [tl Htls].
  destruct (get_not_nullish data "adjustments" Hn) as [adj Hadjs].
  rewrite Hitem, Htls, Hadjs. js_simpl.
  destruct (opt_get_total item "quantity") as [q ->]. js_simpl.
  destruct (opt_get_total item "title") as [ti ->]. js_simpl.
  destruct (opt_get_total item "metadata") as [md Hmd]. rewrite Hmd.
  cbn [mbind result_bind].
  destruct (truthy tl) eqn:Htl; destruct (truthy adj) eqn:Hadj; js_simpl.
  all: try (destruct (prepareTaxLinesData tl) as [tl'|e] eqn:Etl; js_simpl;
            [|right; left; eauto]).
  all: try (destruct (prepareAdjustmentsData adj) as [adj'|e] eqn:Eadj;
            js_simpl; [|right; right; eauto]).
  all: eexists _, item, tl, adj, md.
  all: split_and!; try done; try congruence.
  all: try (by simplify_map_eq; destruct md).
  all: try (intros fields ->; rewrite opt_get_obj in Hmd;
            injection Hmd as <-; simplify_map_eq;
            by destruct (fields !! "metadata") as [[]|]).
  all: split; try done; try congruence.
  all: try (intros _; by simplify_map_eq).
  all: intros [x Hx]; by simplify_map_eq.
Qed.

End CustomLineItemFacts.

(** ** The transforms of the create-cart workflow *)

Section CreateCartFacts.

Import CreateCart.

Lemma strict_eq_length (cs : list value) :
  strict_eq (VNum (Z.of_nat (length cs))) (VNum 1) = bool_decide (length cs = 1%nat).
Proof. simpl. apply bool_decide_ext. lia. Qed.

Lemma if_nullish_Ok (a b : value) :
  (if nullish a then Ok b else Ok a) = Ok (coalesce a b).
Proof. unfold coalesce. by destruct (nullish a). Qed.

Lemma opt_get_cases v k :
  (nullish v = true ∧ opt_get v k = Ok VUndefined) ∨
  (nullish v = false ∧ ∃ x, get v k = Ok x ∧ opt_get v k = Ok x).
Proof.
  unfold opt_get. destruct (nullish v) eqn:Hn; [by left|right].
  destruct (get_not_nullish v k Hn) as [x Hx]. eauto.
Qed.

Lemma single_country (cs : list value) :
  length cs = 1%nat → Forall (λ c, nullish c = false) cs →
  ∃ c iso, cs = [c] ∧ get c "iso_2" = Ok iso.
Proof.
  intros Hlen Hobj. destruct cs as [|c [|? ?]]; try done.
  apply Forall_cons in Hobj as [Hc _].
  destruct (get_not_nullish c "iso_2" Hc) as [iso Hiso]. eauto.
Qed.

(** C10. The [cartInput] transform on an input object, a resolved region
    (an object whose [countries] is an array of objects) and a customer
    step output: it returns a cart whose [currency_code] is the input's
    when that is neither null nor undefined and the region's otherwise;
    [customer_id] and [email] are assigned only when the resolved customer
    has a truthy id ([email] being the input's when defined, the
    customer's otherwise) and are otherwise the input's own; when the
    input's [shipping_address] is falsy and the region has exactly one
    country the [shipping_address] is an object whose [country_code] is
    that country's [iso_2], and otherwise it is the input's as given. *)
Theorem cartInput_fields (i r cd : gmap string value) (salesChannel : value)
    (cs : list value) :
  r !! "countries" = Some (VArr cs) →
  Forall (λ c, nullish c = false) cs →
  let customer := field cd "customer" in
  ∃ data_ cid,
    cartInput (VObj i) (VObj r) (VObj cd) salesChannel = Ok (VObj data_) ∧
    opt_get customer "id" = Ok cid ∧
    data_ !! "currency_code" =
      Some (coalesce (field i "currency_code") (field r "currency_code")) ∧
    data_ !! "region_id" = Some (field r "id") ∧
    (if truthy cid then
       data_ !! "customer_id" = Some cid ∧
       ∃ cemail, get customer "email" = Ok cemail ∧
                 data_ !! "email" = Some (coalesce (field i "email") cemail)
     else
       data_ !! "customer_id" = i !! "customer_id" ∧
       data_ !! "email" = i !! "email") ∧
    (if negb (truthy (field i "shipping_address")) &&
        bool_decide (length cs = 1%nat)
     then ∃ c iso, cs = [c] ∧ get c "iso_2" = Ok iso ∧
                   data_ !! "shipping_address" =
                     Some (obj [("country_code", iso)])
     else data_ !! "shipping_address" = i !! "shipping_address").
Proof.
  intros Hcs Hobj customer. unfold customer, field, cartInput. clear customer.
  js_simpl. cbn [get]. js_simpl. rewrite Hcs. js_simpl. cbn [get]. js_simpl.
  rewrite if_nullish_Ok. js_simpl.
  set (customer := default VUndefined (cd !! "customer")).
  destruct (opt_get_cases customer "id") as [(Hn & ->)|(Hn & cid & Hid & ->)];
    js_simpl.
  { (* no customer *)
    destruct (opt_get_cases salesChannel "id")
      as [(Hs & ->)|(Hs & scid & Hsid & ->)]; js_simpl.
    all: try (destruct (truthy scid); try rewrite Hsid; js_simpl).
    all: destruct (truthy (default VUndefined (i !! "shipping_address")));
      js_simpl.
    all: try (rewrite bool_decide_eq_true_2 by done; rewrite strict_eq_length;
              case_bool_decide as Hlen; js_simpl;
              [destruct (single_country cs Hlen Hobj) as (c & iso & -> & Hiso);
               cbn [get_index lookup list_lookup]; js_simpl; rewrite Hiso;
               js_simpl|]).
    all: eexists _, VUndefined; split; [done|]; split; [done|].
    all: repeat split; try (by simplify_map_eq).
    all: eexists _, _; repeat split; try done; by simplify_map_eq. }
  destruct (get_not_nullish customer "email" Hn) as [cemail Hce].
  destruct (truthy cid) eqn:Hcid; try rewrite Hid; js_simpl.
  all: try (rewrite opt_get_obj; js_simpl;
            rewrite Hce, if_nullish_Ok; js_simpl).
  all: destruct (opt_get_cases salesChannel "id")
      as [(Hs & ->)|(Hs & scid & Hsid & ->)]; js_simpl.
  all: try (destruct (truthy scid); try rewrite Hsid; js_simpl).
  all: destruct (truthy (default VUndefined (i !! "shipping_address")));
    js_simpl.
  all: try (rewrite bool_decide_eq_true_2 by done; rewrite strict_eq_length;
            case_bool_decide as Hlen; js_simpl;
            [destruct (single_country cs Hlen Hobj) as (c & iso & -> & Hiso);
             cbn [get_index lookup list_lookup]; js_simpl; rewrite Hiso;
             js_simpl|]).
  all: eexists _, cid; split; [done|]; split; [done|]; rewrite ?Hcid.
  all: repeat split; try (by simplify_map_eq).
  all: try (exists cemail; split; [done|]; by simplify_map_eq).
  all: eexists _, _; repeat split; try done; by simplify_map_eq.
Qed.

Variable isDefined : value → bool.
Variable prepareLineItemData : value → result value.
Variable productVariantsFields : value.
Variable invoke : string → value → result value.

(** With no variant ids the condition of the [when] is false: the remote
    query step is not invoked and its output is [undefined]. *)
Lemma variants_skipped (pricingContext : value) :
  variants productVariantsFields invoke (VArr []) pricingContext
  = (Ok VUndefined, []).
Proof. done. Qed.

(** With variant ids the remote query step is invoked, once. *)
Lemma variants_invoked (id : value) (ids : list value) (pricingContext : value) :
  let q := variants_query productVariantsFields (VArr (id :: ids)) pricingContext in
  variants productVariantsFields invoke (VArr (id :: ids)) pricingContext
  = (invoke "useRemoteQueryStep" q, [Invoked "useRemoteQueryStep" q]).
Proof.
  unfold variants, when_then.
  assert (variants_condition (obj [("variantIds", VArr (id :: ids))])
          = Ok true) as ->; [|done].
  unfold variants_condition.
  change (get (obj [("variantIds", VArr (id :: ids))]) "variantIds")
    with (Ok (VArr (id :: ids)) : result value).
  js_simpl. cbn [get]. rewrite bool_decide_eq_true_2 by done. done.
Qed.

(** On the skipped branch's [undefined] the [lineItems] transform returns
    the empty list when the input has no items... *)
Lemma lineItems_no_items (priceSets : value) (i : gmap string value) :
  coalesce (field i "items") (VArr []) = VArr [] →
  lineItems isDefined prepareLineItemData priceSets (VObj i) VUndefined
  = Ok (VArr []).
Proof.
  intros H. unfold lineItems. rewrite get_obj. js_simpl.
  fold (field i "items"). by rewrite H.
Qed.

(** ... and throws a [TypeError] as soon as there is one: the callback
    reads [find] of [undefined]. *)
Lemma lineItems_undefined_variants (priceSets : value) (i : gmap string value)
    (item : value) (items : list value) :
  i !! "items" = Some (VArr (item :: items)) →
  lineItems isDefined prepareLineItemData priceSets (VObj i) VUndefined
  = Throw (cannot_read VUndefined "find").
Proof.
  intros H. unfold lineItems. rewrite get_obj, H. done.
Qed.

(** C4 (the code at the failing input). For a cart input whose only item
    has no [variant_id]: the [variantIds] transform yields no id, the
    [when] skips the variants query (no invocation, output [undefined]),
    and the [lineItems] transform, which depends on that output, throws
    the [TypeError] of reading [find] of [undefined]. *)
Theorem lineItems_throws_on_skipped_variants (pricingContext priceSets : value) :
  isDefined VUndefined = false →
  variantIds isDefined custom_item_input = Ok (VArr []) ∧
  variants productVariantsFields invoke (VArr []) pricingContext
    = (Ok VUndefined, []) ∧
  lineItems isDefined prepareLineItemData priceSets custom_item_input VUndefined
    = Throw (TypeError "Cannot read properties of undefined (reading 'find')").
Proof.
  intros Hdef. split; [|split].
  - transitivity (Ok (VArr (filter (λ v, Is_true (isDefined v)) [VUndefined]))
                  : result value); [reflexivity|].
    rewrite filter_cons_False; [done|]. rewrite Hdef. by intros [].
  - apply variants_skipped.
  - unfold custom_item_input, obj.
    by erewrite lineItems_undefined_variants.
Qed.

End CreateCartFacts.

Lemma lineItems_throws_on_skipped_variants_witness :
  CreateCart.variantIds CreateCart.not_undefined CreateCart.custom_item_input
    = Ok (VArr []) ∧
  CreateCart.lineItems CreateCart.not_undefined (λ v, Ok v) (VObj ∅)
    CreateCart.custom_item_input VUndefined
    = Throw (TypeError "Cannot read properties of undefined (reading 'find')").
Proof.
  destruct (lineItems_throws_on_skipped_variants CreateCart.not_undefined
              (λ v, Ok v) VNull (λ _ _, Ok VNull) VNull (VObj ∅) eq_refl)
    as (H1 & _ & H3).
  exact (conj H1 H3).
Defined.

Lemma cartInput_fields_witness :
  ∃ data_,
    CreateCart.cartInput
      (obj [("email", VStr "a@b.c")])
      (obj [("id", VStr "reg_dk"); ("currency_code", VStr "dkk");
            ("countries", VArr [obj [("iso_2", VStr "dk")]])])
      (obj [("customer", obj [("id", VStr "cus_1")])])
      VUndefined
    = Ok (VObj data_) ∧
    data_ !! "currency_code" = Some (VStr "dkk") ∧
    data_ !! "shipping_address" = Some (obj [("country_code", VStr "dk")]).
Proof.
  assert (Hcs : (list_to_map
                   [("id", VStr "reg_dk"); ("currency_code", VStr "dkk");
                    ("countries", VArr [obj [("iso_2", VStr "dk")]])]
                 : gmap string value) !! "countries"
                = Some (VArr [obj [("iso_2", VStr "dk")]])).
  { vm_compute. reflexivity. }
  assert (Hobj : Forall (λ c, nullish c = false) [obj [("iso_2", VStr "dk")]]).
  { repeat constructor. }
  destruct (cartInput_fields
              (list_to_map [("email", VStr "a@b.c")]) _
              (list_to_map [("customer", obj [("id", VStr "cus_1")])])
              VUndefined _ Hcs Hobj)
    as (data_ & cid & Hrun & _ & Hcc & _ & _ & Hsa).
  exists data_. split; [exact Hrun|]. split; [exact Hcc|].
  destruct Hsa as (c & iso & Hc & Hiso & Hsa).
  injection Hc as <-. vm_compute in Hiso. injection Hiso as <-. exact Hsa.
Defined.

(** ** The OpenAPI operation *)

Section OasFacts.

Import Oas.

Lemma present_string (o : gmap string value) k :
  is_Some (o !! k) →
  match o !! k with Some x => validate SString x | None => true end = true →
  ∃ s, o !! k = Some (VStr s).
Proof. intros [x ->]. destruct x; try done. eauto. Qed.

Lemma present_enum (o : gmap string value) k members :
  is_Some (o !! k) →
  match o !! k with Some x => validate (SEnum members) x | None => true end
  = true →
  ∃ s, o !! k = Some (VStr s) ∧ s ∈ members.
Proof.
  intros [x ->]. destruct x; try done. simpl.
  intros H%bool_decide_eq_true. eauto.
Qed.

(** The request body schema as it is written requires all five fields
    [transaction_id], [step_id], [response], [compensate_input] and
    [action], whatever the case: a body is valid exactly when it is an
    object holding the five of them, with [transaction_id] and [step_id]
    strings and [action] one of [invoke] and [compensate]. *)
Theorem requestBody_requires_all_five :
  required_fields requestBody
  = ["transaction_id"; "step_id"; "response"; "compensate_input"; "action"] ∧
  ∀ body,
    validate requestBody body = true ↔
    ∃ o, body = VObj o ∧
         (∀ k, k ∈ required_fields requestBody → is_Some (o !! k)) ∧
         (∃ s, o !! "transaction_id" = Some (VStr s)) ∧
         (∃ s, o !! "step_id" = Some (VStr s)) ∧
         (o !! "action" = Some (VStr "invoke") ∨
          o !! "action" = Some (VStr "compensate")).
Proof.
  split; [done|]. intros body. split.
  - destruct body as [| | | | | |o]; try done.
    cbn [validate requestBody forallb].
    rewrite !andb_true_iff, !bool_decide_eq_true.
    intros [(Ht & Hs & Hr & Hc & Ha & _) (Vt & Vs & _ & _ & Va & _)].
    exists o. split; [done|].
    destruct (present_string o _ Ht Vt) as [t Et].
    destruct (present_string o _ Hs Vs) as [s Es].
    destruct (present_enum o _ _ Ha Va) as (a & Ea & Hin).
    repeat split; eauto.
    + intros k Hk. cbn [required_fields requestBody] in Hk.
      repeat (apply elem_of_cons in Hk as [-> | Hk]; [done|]).
      by apply elem_of_nil in Hk.
    + apply elem_of_cons in Hin as [-> | Hin]; [by left|].
      apply elem_of_cons in Hin as [-> | Hin]; [by right|].
      by apply elem_of_nil in Hin.
  - intros (o & -> & Hreq & [t Et] & [s Es] & Ha).
    cbn [validate requestBody forallb].
    rewrite !andb_true_iff, !bool_decide_eq_true.
    split.
    + cbn [required_fields requestBody] in Hreq.
      repeat split; try apply Hreq;
        by repeat first [apply list_elem_of_here | apply list_elem_of_further].
    + rewrite Et, Es. cbn [validate].
      destruct (o !! "response"), (o !! "compensate_input");
        destruct Ha as [-> | ->]; done.
Qed.

(** C1. A signal of the invoke case that carries the four fields the
    specification asks of that case ([transaction_id], [step_id],
    [response] and [action]) is rejected by the request body schema,
    whose [required] list names [compensate_input] as well: the list is
    neither the one of the invoke case nor the one of the compensate
    case. *)
Lemma invoke_case_fields_not_enough :
  has_fields (spec_required Invoke) invoke_body = true ∧
  get invoke_body "action" = Ok (VStr (action_name Invoke)) ∧
  validate requestBody invoke_body = false ∧
  required_fields requestBody ≠ spec_required Invoke ∧
  required_fields requestBody ≠ spec_required Compensate.
Proof. repeat split; try done; by vm_compute. Qed.

(** C2 (counterexample). The failure responses the operation declares are
    not the five the specification lists: 401 is declared as well. *)
Lemma failure_responses_include_401 :
  responses.*1 ≠ spec_failure_codes ∧
  401%nat ∈ responses.*1 ∧ 401%nat ∉ spec_failure_codes.
Proof.
  split; [done|]. split.
  - cbn. by repeat first [apply list_elem_of_here | apply list_elem_of_further].
  - unfold spec_failure_codes. intros H.
    repeat (apply elem_of_cons in H as [H | H]; [done|]).
    by apply elem_of_nil in H.
Qed.

End OasFacts.

(** ** The handler behind the endpoint *)

Section SignalFacts.

Import Signal.

Variable semantically_valid : step_record → value → bool.
Variable durable : store → bool.

Abbreviation handle := (step_success semantically_valid durable).

Ltac settle :=
  split_and!;
  try done;
  try (by left);
  try (by right; cbn;
       repeat first [apply list_elem_of_here | apply list_elem_of_further]);
  try (split; [done|];
       intros;
       repeat match goal with
              | H : _ ∧ _ |- _ => destruct H
              | H : ∃ _, _ |- _ => destruct H
              end;
       simplify_eq; congruence);
  try (split; [|done]; intros; eauto 10).

(** C2 (as amended). The operation declares six failure responses: 400,
    401 (unauthorized), 404, 409 (invalid state), 422 and 500.  On the
    handler of the specification: every answer is 200 or one of the
    declared codes, and any answer but 200 leaves the execution log and
    the list of resumed steps as they were; the answer is 401 exactly to
    an unauthenticated request, 400 exactly to an authenticated request
    with a malformed body, 404 exactly when the body is well-formed and
    no step record has its (transaction_id, step_id), 409 exactly when
    that record exists and is already terminal, 422 and 500 only for a
    pending record (a semantically invalid payload, a failed write); and
    a signal that was accepted, delivered again, is answered 409 and
    resumes nothing. *)
Theorem step_signal_failure_responses :
  Oas.responses.*1 = [400; 401; 404; 409; 422; 500]%nat ∧
  Oas.responses !! 3%nat
    = Some (409%nat, "#/components/responses/invalid_state_error") ∧
  ∀ authenticated body st,
    let '(code, st') := handle authenticated body st in
    let valid := Oas.validate Oas.requestBody body in
    let record := log st !! body_key body in
    (code = 200%nat ∨ code ∈ Oas.responses.*1) ∧
    (code ≠ 200%nat → st' = st) ∧
    (code = 401%nat ↔ authenticated = false) ∧
    (code = 400%nat ↔ authenticated = true ∧ valid = false) ∧
    (code = 404%nat ↔ authenticated = true ∧ valid = true ∧ record = None) ∧
    (code = 409%nat ↔
       authenticated = true ∧ valid = true ∧
       ∃ r, record = Some r ∧ terminal (rec_status r) = true) ∧
    (code = 422%nat ↔
       authenticated = true ∧ valid = true ∧
       ∃ r, record = Some r ∧ terminal (rec_status r) = false ∧
            semantically_valid r body = false) ∧
    (code = 500%nat ↔
       authenticated = true ∧ valid = true ∧
       ∃ r, record = Some r ∧ terminal (rec_status r) = false ∧
            semantically_valid r body = true ∧ durable st = false) ∧
    (code = 200%nat →
       handle authenticated body st' = (409%nat, st') ∧
       resumed st' = resumed st ++ [body_key body]).
Proof.
  split; [done|]. split; [done|]. intros authenticated body st.
  unfold step_success. cbn [Oas.x_authenticated andb].
  destruct authenticated; cbn [negb]; [|settle].
  destruct (Oas.validate Oas.requestBody body) eqn:Hv; cbn [negb]; [|settle].
  destruct (log st !! body_key body) as [r|] eqn:Hr; [|settle].
  destruct (terminal (rec_status r)) eqn:Ht; [settle|].
  destruct (semantically_valid r body) eqn:Hs; cbn [negb]; [|settle].
  destruct (durable st) eqn:Hd; cbn [negb]; [|settle].
  settle. cbn [log]. rewrite lookup_insert_eq. cbn [rec_status].
  by destruct (body_action body).
Qed.

End SignalFacts.

(** ** [PriceListRepository] *)

Section RepoFacts.

Import Repo.

Variable SELECT_IN : value.
Variable em_find : manager → hval → gmap string hval → list PriceList.
Variable em_findAndCount :
  manager → hval → gmap string hval → list PriceList * nat.
Variable em_create : manager → value → result PriceList.
Variable em_assign : manager → PriceList → UpdatePriceListDTO → PriceList.
Variable getActiveManager : manager → Context → manager.
Variable manager_ : manager.

Lemma bind_run {A B} (m : M A) (f : A → M B) st :
  (m ≫= f) st = match m st with
                | (Ok a, st') => f a st'
                | (Throw e, st') => (Throw e, st')
                end.
Proof. done. Qed.

Ltac run_all :=
  repeat first
    [ rewrite bind_run
    | rewrite lookup_insert_eq
    | rewrite lookup_insert_ne by done
    | progress cbn [mret M_ret alloc fields_of read_field write_field
                    object_assign deref emit throw lift heap calls default
                    from_option id hnullish nullish] ].

Ltac frame_done :=
  try done;
  try (by apply lookup_union_Some_l, lookup_singleton_eq);
  try (by intros; simplify_eq);
  try (by intros; simplify_eq; rewrite insert_union_singleton_l);
  try (intros ? [? ?] ?; rewrite !lookup_insert_ne; [done|congruence..]);
  try (by intros; rewrite (right_id_L ∅ (∪))).

(** The copy of the find options, once the object to copy is at hand:
    it never throws and makes no manager call; with well-typed options,
    the options handed on are an object whose strategy is [SELECT_IN],
    which is the caller's own options object when there is one. *)
Lemma copy_and_force_strategy (h : gmap loc (gmap string hval)) cs
    (fields : gmap string hval) :
  let l1 := fresh (dom h) in
  ∃ options st',
    (options ← read_field l1 "options";
     _ ← (if hnullish options then
            o ← alloc ∅;
            write_field l1 "options" (HRef o)
          else mret ());
     options ← read_field l1 "options";
     _ ← object_assign options {["strategy" := HVal SELECT_IN]};
     where_ ← read_field l1 "where";
     options ← read_field l1 "options";
     mret (where_, options)) (mkState (<[l1 := fields]> h) cs)
    = (Ok (default (HVal VUndefined) (fields !! "where"), options), st') ∧
    calls st' = cs ∧
    (options_typed h fields →
     ∃ lo o,
       options = HRef lo ∧
       heap st' !! lo = Some o ∧
       o !! "strategy" = Some (HVal SELECT_IN) ∧
       (∀ lo0 o0, fields !! "options" = Some (HRef lo0) → h !! lo0 = Some o0 →
                  lo = lo0 ∧ o = <["strategy" := HVal SELECT_IN]> o0) ∧
       (fields !! "options" = None → o = {["strategy" := HVal SELECT_IN]}) ∧
       (∀ l, is_Some (h !! l) → fields !! "options" ≠ Some (HRef l) →
             heap st' !! l = h !! l)).
Proof.
  intros l1. unfold options_typed.
  assert (Hl1 : h !! l1 = None) by apply not_elem_of_dom, is_fresh.
  assert (Hl2 : (<[l1:=fields]> h) !! fresh (dom (<[l1:=fields]> h)) = None)
    by apply not_elem_of_dom, is_fresh.
  assert (Hne : fresh (dom (<[l1:=fields]> h)) ≠ l1).
  { intros E. rewrite E, lookup_insert_eq in Hl2. done. }
  rewrite lookup_insert_ne in Hl2 by done.
  destruct (fields !! "options") as [[v|lo0]|] eqn:Hopt.
  - destruct (nullish v) eqn:Hv.
    + repeat (progress (run_all; rewrite ?Hopt, ?Hv)).
      eexists _, _. split; [reflexivity|]. split; [done|]. intros _.
      eexists _, ({["strategy" := HVal SELECT_IN]} ∪ ∅).
      run_all. split_and!; frame_done.
    + repeat (progress (run_all; rewrite ?Hopt, ?Hv)).
      eexists _, _. split; [reflexivity|]. split; [done|]. done.
  - destruct (decide (lo0 = l1)) as [->|Hd].
    + repeat (progress (run_all; rewrite ?Hopt)).
      rewrite !lookup_union_r by done. rewrite Hopt. run_all.
      eexists _, _. split; [reflexivity|]. split; [done|].
      intros [o0 Ho0]. congruence.
    + repeat (progress (run_all; rewrite ?Hopt)).
      eexists _, _. split; [reflexivity|]. split; [done|]. intros [o0 Ho0].
      eexists _, ({["strategy" := HVal SELECT_IN]} ∪ o0).
      repeat (progress (run_all; rewrite ?Ho0)). split_and!; frame_done.
  - repeat (progress (run_all; rewrite ?Hopt)).
    eexists _, _. split; [reflexivity|]. split; [done|]. intros _.
    eexists _, ({["strategy" := HVal SELECT_IN]} ∪ ∅).
    run_all. split_and!; frame_done.
Qed.

Lemma prepare_find_options_spec fo st :
  ∃ options st',
    prepare_find_options SELECT_IN fo st
    = (Ok (default (HVal VUndefined) (caller_fields st fo !! "where"), options),
       st') ∧
    calls st' = calls st ∧
    (options_typed (heap st) (caller_fields st fo) →
     ∃ lo o,
       options = HRef lo ∧
       heap st' !! lo = Some o ∧
       o !! "strategy" = Some (HVal SELECT_IN) ∧
       (∀ lo0 o0, caller_fields st fo !! "options" = Some (HRef lo0) →
                  heap st !! lo0 = Some o0 →
                  lo = lo0 ∧ o = <["strategy" := HVal SELECT_IN]> o0) ∧
       (caller_fields st fo !! "options" = None →
        o = {["strategy" := HVal SELECT_IN]}) ∧
       (∀ l, is_Some (heap st !! l) →
             caller_fields st fo !! "options" ≠ Some (HRef l) →
             heap st' !! l = heap st !! l)).
Proof.
  unfold prepare_find_options. destruct fo as [l|]; cbn [caller_fields].
  - destruct (copy_and_force_strategy (heap st) (calls st)
                (default ∅ (heap st !! l)))
      as (opts & st' & Hrun & Hc & Hty).
    exists opts, st'. split; [exact Hrun|]. done.
  - set (l0 := fresh (dom (heap st))).
    assert (Hl0 : heap st !! l0 = None) by apply not_elem_of_dom, is_fresh.
    set (fields := {["where" := HVal (VObj ∅)]} : gmap string hval).
    assert (Hopt : fields !! "options" = None) by done.
    destruct (copy_and_force_strategy (<[l0 := fields]> (heap st)) (calls st)
                fields)
      as (opts & st' & Hrun & Hc & Hty).
    exists opts, st'. split.
    { rewrite bind_run. cbn [alloc heap calls]. fold l0 fields.
      rewrite bind_run. cbn [fields_of heap calls]. rewrite lookup_insert_eq.
      cbn [default from_option id]. rewrite bind_run. cbn [alloc heap calls].
      exact Hrun. }
    split; [done|]. intros _.
    destruct Hty as (lo & o & -> & Hlo & Hs & _ & Ho & Hframe).
    { unfold options_typed. by rewrite Hopt. }
    exists lo, o. split_and!; try done.
    intros l' [x Hx] _. assert (l' ≠ l0) by congruence.
    rewrite Hframe; [by rewrite lookup_insert_ne| |by rewrite Hopt].
    rewrite lookup_insert_ne by done. eauto.
Qed.

Abbreviation active ctx := (getActiveManager manager_ (default empty_context ctx)).
Abbreviation find' := (find SELECT_IN em_find getActiveManager manager_).
Abbreviation findAndCount' :=
  (findAndCount SELECT_IN em_findAndCount getActiveManager manager_).
Abbreviation update' :=
  (update SELECT_IN em_find em_assign getActiveManager manager_).
Abbreviation existing' :=
  (existing SELECT_IN em_find getActiveManager manager_).
Abbreviation run' :=
  (run SELECT_IN em_find em_findAndCount em_create em_assign
       getActiveManager manager_).

(** [find] never throws and makes one call, [manager.find], on the active
    manager. *)
Lemma find_run fo ctx st :
  ∃ options seen st1 st',
    prepare_find_options SELECT_IN fo st
    = (Ok (default (HVal VUndefined) (caller_fields st fo !! "where"), options),
       st1) ∧
    deref options st1 = (Ok seen, st1) ∧
    let where_ := default (HVal VUndefined) (caller_fields st fo !! "where") in
    find' fo ctx st = (Ok (em_find (active ctx) where_ seen), st') ∧
    heap st' = heap st1 ∧
    calls st' = (calls st ++ [(active ctx, CFind where_ options seen)])%list.
Proof.
  destruct (prepare_find_options_spec fo st) as (opts & st1 & Hrun & Hc & _).
  exists opts, (default ∅ (match opts with
                            | HRef l => heap st1 !! l
                            | HVal _ => None
                            end)).
  exists st1.
  exists (mkState (heap st1)
            (calls st ++
             [(active ctx,
               CFind (default (HVal VUndefined) (caller_fields st fo !! "where"))
                 opts
                 (default ∅ (match opts with
                             | HRef l => heap st1 !! l
                             | HVal _ => None
                             end)))])).
  split; [exact Hrun|]. split; [by destruct opts|].
  unfold find. rewrite bind_run, Hrun. cbn zeta.
  destruct opts as [v|l]; run_all; rewrite Hc; done.
Qed.

Lemma findAndCount_run fo ctx st :
  ∃ options seen st1 st',
    prepare_find_options SELECT_IN fo st
    = (Ok (default (HVal VUndefined) (caller_fields st fo !! "where"), options),
       st1) ∧
    deref options st1 = (Ok seen, st1) ∧
    let where_ := default (HVal VUndefined) (caller_fields st fo !! "where") in
    findAndCount' fo ctx st
    = (Ok (em_findAndCount (active ctx) where_ seen), st') ∧
    heap st' = heap st1 ∧
    calls st'
    = (calls st ++ [(active ctx, CFindAndCount where_ options seen)])%list.
Proof.
  destruct (prepare_find_options_spec fo st) as (opts & st1 & Hrun & Hc & _).
  exists opts, (default ∅ (match opts with
                            | HRef l => heap st1 !! l
                            | HVal _ => None
                            end)).
  exists st1.
  exists (mkState (heap st1)
            (calls st ++
             [(active ctx,
               CFindAndCount (default (HVal VUndefined) (caller_fields st fo !! "where"))
                 opts
                 (default ∅ (match opts with
                             | HRef l => heap st1 !! l
                             | HVal _ => None
                             end)))])).
  split; [exact Hrun|]. split; [by destruct opts|].
  unfold findAndCount. rewrite bind_run, Hrun. cbn zeta.
  destruct opts as [v|l]; run_all; rewrite Hc; done.
Qed.

(** C8. Every call to [find] or [findAndCount] whose options are absent,
    nullish or an object runs the query with an options object whose
    strategy is [LoadStrategy.SELECT_IN], whatever the caller supplied;
    and when the caller supplied an options object, the object handed to
    the manager is that very object, which after the call holds the
    [SELECT_IN] strategy (its other fields as they were). *)
Theorem find_forces_select_in fo ctx st op :
  options_typed (heap st) (caller_fields st fo) →
  op = OpFind fo ∨ op = OpFindAndCount fo →
  ∃ where_ lo seen st',
    run' op ctx st = (Ok (), st') ∧
    calls st'
    = (calls st ++
       [(active ctx,
         match op with
         | OpFindAndCount _ => CFindAndCount where_ (HRef lo) seen
         | _ => CFind where_ (HRef lo) seen
         end)])%list ∧
    heap st' !! lo = Some seen ∧
    seen !! "strategy" = Some (HVal SELECT_IN) ∧
    (∀ l lo0 o0,
       fo = Some l →
       default ∅ (heap st !! l) !! "options" = Some (HRef lo0) →
       heap st !! lo0 = Some o0 →
       lo = lo0 ∧
       heap st' !! lo0 = Some (<["strategy" := HVal SELECT_IN]> o0)).
Proof.
  intros Hty Hop.
  destruct (prepare_find_options_spec fo st)
    as (opts & st1 & Hrun & _ & Htyped).
  destruct (Htyped Hty) as (lo & o & -> & Hlo & Hs & Hown & _ & _).
  assert (Hcaller : ∀ l lo0 o0 st',
            heap st' = heap st1 → fo = Some l →
            default ∅ (heap st !! l) !! "options" = Some (HRef lo0) →
            heap st !! lo0 = Some o0 →
            lo = lo0 ∧
            heap st' !! lo0 = Some (<["strategy" := HVal SELECT_IN]> o0)).
  { intros l lo0 o0 st' Hh -> Hopt Ho0.
    destruct (Hown lo0 o0 Hopt Ho0) as [<- <-]. by rewrite Hh. }
  exists (default (HVal VUndefined) (caller_fields st fo !! "where")), lo, o.
  destruct Hop as [-> | ->].
  - destruct (find_run fo ctx st)
      as (opts' & seen & st1' & st' & Hrun' & Hderef & Hfind & Hheap & Hcalls).
    rewrite Hrun in Hrun'. injection Hrun' as <- <-.
    unfold deref, fields_of in Hderef. rewrite Hlo in Hderef.
    injection Hderef as <-.
    exists st'. cbn [run]. rewrite bind_run, Hfind. rewrite Hheap.
    split_and!; try done. intros l lo0 o0. by apply Hcaller.
  - destruct (findAndCount_run fo ctx st)
      as (opts' & seen & st1' & st' & Hrun' & Hderef & Hfind & Hheap & Hcalls).
    rewrite Hrun in Hrun'. injection Hrun' as <- <-.
    unfold deref, fields_of in Hderef. rewrite Hlo in Hderef.
    injection Hderef as <-.
    exists st'. cbn [run]. rewrite bind_run, Hfind. rewrite Hheap.
    split_and!; try done. intros l lo0 o0. by apply Hcaller.
Qed.

(** *** Where the manager calls go *)

Lemma calls_on_ret m {A} (a : A) : calls_on m (mret a : M A).
Proof. intros st. exists []. by rewrite (right_id_L [] (++)). Qed.

Lemma calls_on_throw m {A} e : calls_on m (throw e : M A).
Proof. intros st. exists []. by rewrite (right_id_L [] (++)). Qed.

Lemma calls_on_emit m c : calls_on m (emit m c).
Proof. intros st. exists [(m, c)]. split; [done|]. by repeat constructor. Qed.

Lemma calls_on_alloc m o : calls_on m (alloc o).
Proof. intros st. exists []. by rewrite (right_id_L [] (++)). Qed.

Lemma calls_on_bind m {A B} (c : M A) (f : A → M B) :
  calls_on m c → (∀ a, calls_on m (f a)) → calls_on m (c ≫= f).
Proof.
  intros Hc Hf st. rewrite bind_run.
  destruct (Hc st) as (new1 & E1 & F1).
  destruct (c st) as [[a|e] st1]; cbn [snd] in E1; [|by exists new1].
  destruct (Hf a st1) as (new2 & E2 & F2).
  exists (new1 ++ new2). rewrite E2, E1, (assoc_L (++)).
  split; [done|]. by apply Forall_app.
Qed.

Lemma calls_on_mapMM m {A B} (f : A → M B) (l : list A) :
  (∀ a, calls_on m (f a)) → calls_on m (mapMM f l).
Proof.
  intros Hf. induction l as [|x l IH]; cbn [mapMM].
  - apply calls_on_ret.
  - apply calls_on_bind; [done|]. intros y.
    apply calls_on_bind; [done|]. intros ys. apply calls_on_ret.
Qed.

Lemma calls_on_find fo ctx : calls_on (active ctx) (find' fo ctx).
Proof.
  intros st.
  destruct (find_run fo ctx st) as (? & ? & ? & st' & _ & _ & Hf & _ & Hc).
  rewrite Hf. cbn [snd]. rewrite Hc.
  eexists. split; [done|]. by repeat constructor.
Qed.

Lemma calls_on_findAndCount fo ctx :
  calls_on (active ctx) (findAndCount' fo ctx).
Proof.
  intros st.
  destruct (findAndCount_run fo ctx st)
    as (? & ? & ? & st' & _ & _ & Hf & _ & Hc).
  rewrite Hf. cbn [snd]. rewrite Hc.
  eexists. split; [done|]. by repeat constructor.
Qed.

Create HintDb calls_on.

Hint Resolve calls_on_ret calls_on_throw calls_on_emit calls_on_alloc
  calls_on_find calls_on_findAndCount : calls_on.

Ltac calls_on_tac :=
  repeat first
    [ apply calls_on_bind; [|intros ?]
    | apply calls_on_mapMM; intros ?
    | solve [auto with calls_on]
    | match goal with |- calls_on _ (match ?x with _ => _ end) =>
        destruct x
      end ].

Lemma create_map_run (m : manager) (data : list value) st :
  ∃ pre ents,
    Forall2 (λ d p, em_create m d = Ok p) pre ents ∧
    match mapMM (λ priceList, _ ← emit m (CCreate priceList);
                              lift (em_create m priceList)) data st with
    | (Ok ps, st') =>
        pre = data ∧ ps = ents ∧
        st' = mkState (heap st) (calls st ++ ((λ d, (m, CCreate d)) <$> data))
    | (Throw e, st') =>
        ∃ x post,
          data = pre ++ x :: post ∧
          em_create m x = Throw e ∧
          st' = mkState (heap st)
                  (calls st ++ ((λ d, (m, CCreate d)) <$> pre ++ [x]))
    end.
Proof.
  revert st. induction data as [|d data IH]; intros st; cbn [mapMM].
  - exists [], []. split; [constructor|]. cbn [mret M_ret fmap list_fmap].
    rewrite (right_id_L [] (++)). by destruct st.
  - run_all. destruct (em_create m d) as [p|e] eqn:Hd.
    + run_all.
      destruct (IH (mkState (heap st) (calls st ++ [(m, CCreate d)])))
        as (pre & ents & Hpre & Hres).
      destruct (mapMM _ data _) as [[ps|e] st'].
      * destruct Hres as (-> & -> & ->). exists (d :: data), (p :: ents).
        split; [by constructor|]. cbn [heap calls mret M_ret].
        split_and!; try done. by rewrite <- (assoc_L (++)).
      * destruct Hres as (x & post & -> & Hx & ->).
        exists (d :: pre), (p :: ents). split; [by constructor|].
        exists x, post. cbn [heap calls]. split_and!; try done.
        by rewrite <- (assoc_L (++)).
    + exists [], []. split; [constructor|]. by exists d, data.
Qed.

Lemma update_unfold data ctx st :
  ∃ opts st1,
    calls st1
    = calls st ++
      [(active ctx,
        CFind (HVal (id_in (upd_id <$> data))) opts
              {["strategy" := HVal SELECT_IN]})] ∧
    update' data ctx st
    = (moneyAmounts ←
         mapMM (assign_existing em_assign (active ctx)
                  (new_Map ((λ p, (pl_id p, p)) <$> existing' data ctx)))
               data;
       _ ← emit (active ctx) (CPersist moneyAmounts);
       mret moneyAmounts) st1.
Proof.
  unfold update. rewrite bind_run. cbn [alloc].
  set (l0 := fresh (dom (heap st))). set (st0 := mkState _ _).
  assert (Hl0 : heap st !! l0 = None) by apply not_elem_of_dom, is_fresh.
  assert (Hfields : caller_fields st0 (Some l0)
                    = {["where" := HVal (id_in (upd_id <$> data))]}).
  { cbn [caller_fields st0 heap]. by rewrite lookup_insert_eq. }
  destruct (prepare_find_options_spec (Some l0) st0)
    as (opts & st1 & Hrun & _ & Hty).
  destruct Hty as (lo & o & -> & Hlo & _ & _ & Ho & _).
  { unfold options_typed. by rewrite Hfields. }
  rewrite Hfields in Ho. specialize (Ho eq_refl). subst o.
  destruct (find_run (Some l0) ctx st0)
    as (opts' & seen & st1' & st' & Hrun' & Hderef & Hfind & _ & Hcalls).
  rewrite Hrun in Hrun'. injection Hrun' as <- <-.
  unfold deref, fields_of in Hderef. rewrite Hlo in Hderef.
  injection Hderef as <-.
  rewrite Hfields in Hfind, Hcalls. rewrite lookup_singleton_eq in Hfind, Hcalls.
  cbn [default from_option id] in Hfind, Hcalls.
  exists (HRef lo), st'. split; [exact Hcalls|].
  rewrite bind_run, Hfind. done.
Qed.

(** C6. The repository's operations are [find], [findAndCount], [delete],
    [create] and [update]; whichever is run, every call it makes on an
    entity manager is made on [getActiveManager(context)], the manager of
    the context passed in ([{}] when none is), and it makes at least one
    such call.  The repository's own [manager_] is reached only through
    [getActiveManager]. *)
Theorem operations_use_the_active_manager (op : operation)
    (ctx : option Context) (st : state) :
  ∃ new,
    calls (run' op ctx st).2 = (calls st ++ new)%list ∧
    new ≠ [] ∧
    Forall (λ mc, mc.1 = getActiveManager manager_ (default empty_context ctx))
           new.
Proof.
  destruct op as [fo|fo|ids|data|data]; cbn [run].
  - rewrite bind_run.
    destruct (find_run fo ctx st) as (? & ? & ? & st' & _ & _ & Hf & _ & Hc).
    rewrite Hf. cbn [snd mret M_ret]. rewrite Hc.
    eexists. split; [done|]. split; [done|]. by repeat constructor.
  - rewrite bind_run.
    destruct (findAndCount_run fo ctx st)
      as (? & ? & ? & st' & _ & _ & Hf & _ & Hc).
    rewrite Hf. cbn [snd mret M_ret]. rewrite Hc.
    eexists. split; [done|]. split; [done|]. by repeat constructor.
  - eexists. split; [done|]. split; [done|]. by repeat constructor.
  - rewrite bind_run. unfold create. rewrite bind_run.
    destruct (create_map_run (active ctx) data st) as (pre & ents & _ & Hres).
    destruct (mapMM _ data st) as [[ps|e] st1].
    + destruct Hres as (-> & -> & ->). run_all. cbn [snd calls].
      eexists (_ ++ [_]). rewrite (assoc_L (++)).
      split; [done|]. split; [by destruct data|].
      apply Forall_app. split; [|by repeat constructor].
      apply Forall_fmap, Forall_true. done.
    + destruct Hres as (x & post & -> & _ & ->). cbn [snd calls].
      eexists. split; [done|]. split; [by destruct pre|].
      apply Forall_fmap, Forall_true. done.
  - rewrite bind_run.
    destruct (update_unfold data ctx st) as (opts & st1 & Hc1 & ->).
    set (rest := mapMM _ _ ≫= _).
    assert (Hrest : calls_on (active ctx) rest).
    { unfold rest, assign_existing. calls_on_tac. }
    destruct (Hrest st1) as (new2 & E2 & F2).
    destruct (rest st1) as [[a|e] st2]; cbn [snd] in *; run_all;
      unfold mret, M_ret; cbn [snd];
      rewrite E2, Hc1, <- (assoc_L (++));
      (eexists; split; [done|]; split; [done|]; by constructor).
Qed.

(** *** [update] on a missing price list *)

Lemma new_Map_lookup_None (entries : list (string * PriceList)) k :
  new_Map entries !! k = None ↔ k ∉ entries.*1.
Proof.
  unfold new_Map.
  assert (H : ∀ m : gmap string PriceList,
            foldl (λ m kv, <[kv.1 := kv.2]> m) m entries !! k = None
            ↔ m !! k = None ∧ k ∉ entries.*1).
  { induction entries as [|[k' p] entries IH]; intros m; cbn [foldl fmap list_fmap].
    - split; [|by intros []]. intros ?. split; [done|]. apply not_elem_of_nil.
    - rewrite IH, not_elem_of_cons, lookup_insert_None. cbn [fst snd].
      split; [intros [[? ?] ?]|intros [? [? ?]]]; auto. }
  rewrite H, lookup_empty. split; [by intros []|done].
Qed.

Lemma assign_existing_cons (m : manager) (emap : gmap string PriceList)
    (d : UpdatePriceListDTO) (data : list UpdatePriceListDTO) st :
  mapMM (assign_existing em_assign m emap) (d :: data) st
  = match emap !! upd_id d with
    | None =>
        (Throw (MedusaError NOT_FOUND (not_found_message (upd_id d))), st)
    | Some p =>
        match mapMM (assign_existing em_assign m emap) data
                (mkState (heap st) (calls st ++ [(m, CAssign p d)])) with
        | (Ok ys, st') => (Ok (em_assign m p d :: ys), st')
        | (Throw e, st') => (Throw e, st')
        end
    end.
Proof.
  cbn [mapMM]. rewrite bind_run. unfold assign_existing at 1.
  destruct (emap !! upd_id d) as [p|]; run_all; [|done].
  by destruct (mapMM _ data _) as [[ys|e] st'].
Qed.

Lemma assign_existing_run (m : manager) (emap : gmap string PriceList)
    (data : list UpdatePriceListDTO) st :
  ∃ new,
    calls (mapMM (assign_existing em_assign m emap) data st).2 = calls st ++ new ∧
    Forall (λ mc, is_persist mc.2 = false) new ∧
    match (mapMM (assign_existing em_assign m emap) data st).1 with
    | Ok _ => Forall (λ d, is_Some (emap !! upd_id d)) data
    | Throw e =>
        ∃ pre d post,
          data = pre ++ d :: post ∧
          Forall (λ d', is_Some (emap !! upd_id d')) pre ∧
          emap !! upd_id d = None ∧
          e = MedusaError NOT_FOUND (not_found_message (upd_id d))
    end.
Proof.
  revert st. induction data as [|d data IH]; intros st.
  - exists []. rewrite (right_id_L [] (++)). cbn [mapMM fst snd mret M_ret].
    split; [done|]. split; by constructor.
  - rewrite assign_existing_cons.
    destruct (emap !! upd_id d) as [p|] eqn:Hd.
    + destruct (IH (mkState (heap st) (calls st ++ [(m, CAssign p d)])))
        as (new & Hc & Hnp & Hres).
      destruct (mapMM _ data _) as [[ents|e] st2]; cbn [fst snd heap calls] in *.
      * exists ((m, CAssign p d) :: new). rewrite Hc, <- (assoc_L (++)).
        split; [done|]. split; [by constructor|].
        constructor; [by rewrite Hd|done].
      * exists ((m, CAssign p d) :: new). rewrite Hc, <- (assoc_L (++)).
        split; [done|]. split; [by constructor|].
        destruct Hres as (pre & d' & post & -> & Hpre & Hnone & ->).
        exists (d :: pre), d', post. split_and!; try done.
        constructor; [by rewrite Hd|done].
    + cbn [fst snd]. exists []. rewrite (right_id_L [] (++)).
      split; [done|]. split; [done|]. by exists [], d, data.
Qed.

(** C7. When some id of the input data has no existing price list (the
    manager's [find] for the ids of the data returns no row with that id),
    [update] throws a NOT_FOUND error whose message is [PriceList with id],
    the first such id of the data between double quotes (character 034),
    and [not found]; and none of the manager calls it made hands entities
    over for persistence: [persist] is not called. *)
Theorem update_not_found (data : list UpdatePriceListDTO)
    (ctx : option Context) (st : state) (missing : UpdatePriceListDTO) :
  missing ∈ data →
  upd_id missing ∉ pl_id <$> existing' data ctx →
  ∃ pre d post new st',
    data = pre ++ d :: post ∧
    Forall (λ d', upd_id d' ∈ pl_id <$> existing' data ctx) pre ∧
    (upd_id d ∉ pl_id <$> existing' data ctx) ∧
    update' data ctx st
    = (Throw (MedusaError NOT_FOUND
                ("PriceList with id " +:+
                 String "034"%char (upd_id d +:+
                 String "034"%char " not found"))), st') ∧
    calls st' = calls st ++ new ∧
    Forall (λ mc, is_persist mc.2 = false) new.
Proof.
  intros Hin Hmiss.
  destruct (update_unfold data ctx st) as (opts & st1 & Hc1 & ->).
  set (emap := new_Map ((λ p, (pl_id p, p)) <$> existing' data ctx)).
  assert (Hemap : ∀ k, emap !! k = None ↔ k ∉ pl_id <$> existing' data ctx).
  { intros k. unfold emap. rewrite new_Map_lookup_None.
    by rewrite <- list_fmap_compose. }
  destruct (assign_existing_run (active ctx) emap data st1)
    as (new & Hc & Hnp & Hres).
  rewrite bind_run.
  destruct (mapMM _ data st1) as [[ents|e] st2]; cbn [fst snd] in *.
  - exfalso. rewrite Forall_forall in Hres.
    destruct (Hres missing Hin) as [p Hp].
    apply Hemap in Hmiss. congruence.
  - destruct Hres as (pre & d & post & Hdata & Hpre & Hnone & ->).
    exists pre, d, post. eexists (_ :: new), st2. split_and!.
    + done.
    + eapply Forall_impl; [exact Hpre|]. intros d' [p Hp]. cbn beta.
      destruct (decide (upd_id d' ∈ pl_id <$> existing' data ctx)) as [|Hn];
        [done|]. apply Hemap in Hn. congruence.
    + by apply Hemap.
    + done.
    + rewrite Hc, Hc1, <- (assoc_L (++)). done.
    + by constructor.
Qed.

End RepoFacts.

Lemma find_forces_select_in_witness :
  ∃ st',
    Repo.run Repo.select_in Repo.no_rows Repo.no_rows_counted
      Repo.create_entity Repo.assign_fields Repo.context_manager 0%nat
      (Repo.OpFind (Some 1%positive)) None (Repo.mkState Repo.caller_heap [])
    = (Ok (), st') ∧
    Repo.heap st' !! 2%positive
    = Some {["strategy" := Repo.HVal Repo.select_in;
             "limit" := Repo.HVal (VNum 10)]}.
Proof.
  assert (Hty : Repo.options_typed Repo.caller_heap
                  (Repo.caller_fields (Repo.mkState Repo.caller_heap [])
                                      (Some 1%positive))).
  { vm_compute. eauto. }
  destruct (find_forces_select_in Repo.select_in Repo.no_rows
              Repo.no_rows_counted Repo.create_entity Repo.assign_fields
              Repo.context_manager 0%nat (Some 1%positive) None
              (Repo.mkState Repo.caller_heap []) (Repo.OpFind (Some 1%positive))
              Hty (or_introl eq_refl))
    as (w & lo & seen & st' & Hrun & _ & _ & _ & Hown).
  exists st'. split; [exact Hrun|].
  assert (H1 : default ∅ (Repo.caller_heap !! 1%positive) !! "options"
               = Some (Repo.HRef 2%positive)) by (vm_compute; reflexivity).
  assert (H2 : Repo.caller_heap !! 2%positive
               = Some {["strategy" := Repo.HVal (VStr "joined");
                        "limit" := Repo.HVal (VNum 10)]})
    by (vm_compute; reflexivity).
  destruct (Hown 1%positive 2%positive _ eq_refl H1 H2) as [_ Hheap].
  exact Hheap.
Defined.

Lemma update_not_found_witness :
  ∃ st',
    Repo.update Repo.select_in Repo.no_rows Repo.assign_fields
      Repo.context_manager 0%nat [Repo.mkUpdate "pl_1" ∅] None
      (Repo.mkState ∅ [])
    = (Throw (MedusaError NOT_FOUND
                (String.append "PriceList with id "
                   (String "034"%char
                      (String.append "pl_1"
                         (String "034"%char " not found"))))), st') ∧
    Forall (λ mc, Repo.is_persist mc.2 = false) (Repo.calls st').
Proof.
  destruct (update_not_found Repo.select_in Repo.no_rows Repo.assign_fields
              Repo.context_manager 0%nat [Repo.mkUpdate "pl_1" ∅] None
              (Repo.mkState ∅ []) (Repo.mkUpdate "pl_1" ∅))
    as (pre & d & post & new & st' & Hdata & _ & _ & Hrun & Hcalls & Hnp).
  - apply list_elem_of_here.
  - apply not_elem_of_nil.
  - exists st'. destruct pre as [|? [|? ?]]; try done.
    injection Hdata as <- <-. split; [exact Hrun|]. by rewrite Hcalls.
Defined.

(** ** The transaction engine *)

Section EngineFacts.

Import Engine.

Variable wf : workflow.

Lemma successes_app tr1 tr2 :
  successes (tr1 ++ tr2) = successes tr1 ++ successes tr2.
Proof. apply omap_app. Qed.

Lemma compensations_app tr1 tr2 :
  compensations (tr1 ++ tr2) = compensations tr1 ++ compensations tr2.
Proof. apply omap_app. Qed.

Lemma invokes_app tr1 tr2 :
  invokes (tr1 ++ tr2) = invokes tr1 ++ invokes tr2.
Proof. apply omap_app. Qed.

Lemma status_of_insert t s st x :
  default Pending (<[s := st]> (steps t) !! x)
  = if decide (x = s) then st else status_of t x.
Proof.
  destruct (decide (x = s)) as [->|Hne].
  - by rewrite lookup_insert_eq.
  - by rewrite lookup_insert_ne.
Qed.

Lemma ready_spec t s :
  ready wf t s = true →
  status_of t s = Pending ∧ s ∉ in_flight t.
Proof.
  unfold ready, pending. rewrite !andb_true_iff, !bool_decide_eq_true.
  intros [[[_ Hp] Hf] _]. split; [|done].
  by destruct (status_of t s).
Qed.

Lemma elem_of_without s x l : x ∈ without s l ↔ x ≠ s ∧ x ∈ l.
Proof. unfold without. by rewrite list_elem_of_filter. Qed.

Lemma without_head s l : s ∉ l → without s (s :: l) = l.
Proof.
  intros Hs. unfold without. rewrite filter_cons_False by (intros H; by apply H).
  induction l as [|x l IH]; [done|].
  apply not_elem_of_cons in Hs as [Hne Hs].
  rewrite filter_cons_True by done. f_equal. by apply IH.
Qed.

(** An extension of the trace after the entry into COMPENSATING that
    holds neither an invoke attempt nor a success. *)
Lemma entered_app tr es :
  entered tr → successes es = [] → invokes es = [] → entered (tr ++ es).
Proof.
  intros (pre & post & -> & Hc & Hs & Hi) Hs' Hi'.
  exists pre, (post ++ es). split_and!; try done.
  - by rewrite <- (assoc_L (++)).
  - by rewrite successes_app, Hs, Hs'.
  - by rewrite invokes_app, Hi, Hi'.
Qed.

Ltac tr_simpl :=
  rewrite ?successes_app, ?compensations_app, ?invokes_app;
  cbn [successes compensations invokes omap list_omap];
  rewrite ?(right_id_L [] (++)).

Ltac inv_easy :=
  try done; try (by tr_simpl); try apply NoDup_nil_2;
  try (intros ? ?Hx; by apply elem_of_nil in Hx).

Ltac inv_fields :=
  split; unfold status_of in *;
  cbn [status steps attempts in_flight stopping completed queue trace
       sweeping];
  inv_easy.

(** The checkpoint of a transaction that is invoking. *)
Lemma checkpoint_inv t :
  status t = INVOKING → inv0 wf t → inv wf (checkpoint wf t).
Proof.
  intros Hst Hinv. pose proof Hinv as [Hc Hnd Hd Hf Hfn Hp He Hs Hr].
  unfold checkpoint.
  destruct (stopping t) eqn:Hstop; cbn [andb].
  - case_bool_decide as Hfl.
    + split; [|by cbn]. inv_fields.
      intros _. split; [done|]. tr_simpl.
      rewrite He by (by rewrite Hst). split; [done|].
      exists (trace t), []. split_and!; try done. apply He. by rewrite Hst.
    + split; [done|]. done.
  - split; [done|]. intros _ Hx. congruence.
Qed.

Lemma inv_init : inv wf init.
Proof. split; [|done]. inv_fields. Qed.

Ltac ins x s :=
  rewrite (status_of_insert _ s _ x); unfold status_of;
  destruct (decide (x = s)) as [->|?].

Lemma inv_step t sig t' :
  inv wf t → engine_step wf t sig = Some t' → inv wf t'.
Proof.
  intros [Hinv Hck] Hstep. pose proof Hinv as [Hc Hnd Hd Hf Hfn Hp He Hs Hr].
  unfold engine_step in Hstep.
  destruct sig as [|s|s|s|s| |s ok|]; destruct (status t) eqn:Hst;
    try discriminate Hstep.
  - (* Start *)
    injection Hstep as <-. split; [|cbn; intros _ Hx; by rewrite Hp in Hx].
    inv_fields.
  - (* InvokeStarted *)
    destruct (negb (stopping t) && ready wf t s) eqn:Hok; [|discriminate].
    apply andb_true_iff in Hok as [Hns Hready]. apply negb_true_iff in Hns.
    apply ready_spec in Hready as [Hpend Hnf].
    injection Hstep as <-. split; [|cbn; congruence]. inv_fields.
    + intros x [->|Hx]%elem_of_cons; [done|by apply Hf].
    + by constructor.
  - (* InvokeSucceeded *)
    case_bool_decide as Hin; [|discriminate]. injection Hstep as <-.
    pose proof (Hf s Hin) as Hpend.
    assert (Hnc : s ∉ completed t).
    { intros Hx. destruct (Hd s Hx); congruence. }
    apply checkpoint_inv; [done|]. inv_fields.
    + tr_simpl. by rewrite reverse_app, Hc.
    + by constructor.
    + intros x Hx. ins x s; [by left|].
      apply elem_of_cons in Hx as [?|Hx]; [done|by apply Hd].
    + intros x [Hne Hx]%elem_of_without. ins x s; [done|by apply Hf].
    + by apply NoDup_filter.
  - (* InvokeFailed *)
    case_bool_decide as Hin; [|discriminate].
    pose proof (Hf s Hin) as Hpend.
    assert (Hnc : s ∉ completed t).
    { intros Hx. destruct (Hd s Hx); congruence. }
    destruct (attempts_of t s <? max_retries wf s)%nat; injection Hstep as <-;
      (apply checkpoint_inv; [done|]); inv_fields.
    + intros x [_ Hx]%elem_of_without. by apply Hf.
    + by apply NoDup_filter.
    + intros x Hx. ins x s; [done|by apply Hd].
    + intros x [Hne Hx]%elem_of_without. ins x s; [done|by apply Hf].
    + by apply NoDup_filter.
  - (* Skip *)
    destruct (negb (stopping t) && ready wf t s) eqn:Hok; [|discriminate].
    apply andb_true_iff in Hok as [Hns Hready]. apply negb_true_iff in Hns.
    apply ready_spec in Hready as [Hpend Hnf].
    assert (Hnc : s ∉ completed t).
    { intros Hx. destruct (Hd s Hx); unfold status_of in *; congruence. }
    injection Hstep as <-. split; [|cbn; congruence]. inv_fields.
    + intros x Hx. ins x s; [done|by apply Hd].
    + intros x Hx. ins x s; [done|by apply Hf].
  - (* Abort *)
    injection Hstep as <-. apply checkpoint_inv; [done|]. inv_fields.
  - (* CompensateSettled *)
    destruct (queue t) as [|s' q] eqn:Hq; [discriminate|].
    destruct (bool_decide (s = s') && has_handler wf s) eqn:Hok; [|discriminate].
    apply andb_true_iff in Hok as [Heq Hh]. apply bool_decide_eq_true in Heq.
    subst s'. injection Hstep as <-.
    destruct Hs as (Hfl & Hsweep & Hent); [done|].
    split; [|done]. inv_fields.
    + destruct ok; by tr_simpl.
    + intros x Hx. destruct ok; [|by apply Hd].
      ins x s; [by right|by apply Hd].
    + intros x Hx. rewrite Hfl in Hx. by apply elem_of_nil in Hx.
    + intros _. split; [done|]. split.
      * rewrite <- Hsweep. destruct ok; tr_simpl;
          by rewrite <- (assoc_L (++)).
      * apply entered_app; [done|by destruct ok..].
  - (* Finish *)
    destruct (negb (stopping t) && bool_decide (in_flight t = []) &&
              forallb (λ s, negb (required wf s) || resolved t s) (wf_steps wf));
      [|discriminate].
    injection Hstep as <-. split; [|done]. inv_fields.
  - destruct Hs as (Hfl & Hsweep & Hent); [done|].
    destruct (queue t) as [|s q] eqn:Hq.
    + injection Hstep as <-. split; [|done]. inv_fields.
      intros _. split; [done|]. split; [rewrite <- Hsweep; by tr_simpl|].
      by apply entered_app.
    + destruct (has_handler wf s); [discriminate|].
      injection Hstep as <-. split; [|done]. inv_fields.
      intros _. split; [done|]. split; [rewrite <- Hsweep; by tr_simpl|].
      by apply entered_app.
Qed.

Lemma inv_run sigs t t' :
  inv wf t → run wf t sigs = Some t' → inv wf t'.
Proof.
  revert t. induction sigs as [|sig sigs IH]; intros t Hinv Hrun.
  - by injection Hrun as <-.
  - cbn [run] in Hrun. destruct (engine_step wf t sig) as [t1|] eqn:Hstep;
      [|discriminate].
    eapply IH; [|exact Hrun]. by eapply inv_step.
Qed.

Lemma run_app t sigs1 sigs2 t1 :
  run wf t sigs1 = Some t1 → run wf t (sigs1 ++ sigs2) = run wf t1 sigs2.
Proof.
  revert t. induction sigs1 as [|sig sigs1 IH]; intros t Hrun.
  - by injection Hrun as <-.
  - cbn [run app] in *. destruct (engine_step wf t sig) as [t'|]; [|discriminate].
    by apply IH.
Qed.

Lemma checkpoint_steps t : steps (checkpoint wf t) = steps t.
Proof. unfold checkpoint. by destruct (_ && _). Qed.

(** A step that failed for good stays failed. *)
Lemma failed_step t sig t' x :
  inv wf t → engine_step wf t sig = Some t' →
  status_of t x = Failed → status_of t' x = Failed.
Proof.
  intros [Hinv _] Hstep Hx. pose proof Hinv as [_ _ Hd Hf _ _ _ Hs _].
  unfold engine_step in Hstep.
  destruct sig as [|s|s|s|s| |s ok|]; destruct (status t) eqn:Hst;
    try discriminate Hstep.
  - by injection Hstep as <-.
  - destruct (_ && _); [|discriminate]. by injection Hstep as <-.
  - case_bool_decide as Hin; [|discriminate]. injection Hstep as <-.
    unfold status_of in *. rewrite checkpoint_steps. cbn [steps].
    ins x s; [|done]. specialize (Hf _ Hin). unfold status_of in Hf. congruence.
  - case_bool_decide as Hin; [|discriminate].
    destruct (_ <? _)%nat; injection Hstep as <-; unfold status_of in *;
      rewrite checkpoint_steps; cbn [steps]; [done|]. by ins x s.
  - destruct (negb (stopping t) && ready wf t s) eqn:Hok; [|discriminate].
    apply andb_true_iff in Hok as [_ [Hp _]%ready_spec].
    injection Hstep as <-. unfold status_of in *. cbn [steps].
    ins x s; [congruence|done].
  - injection Hstep as <-. unfold status_of in *.
    by rewrite checkpoint_steps.
  - destruct (queue t) as [|s' q] eqn:Hq; [discriminate|].
    destruct (bool_decide (s = s') && has_handler wf s) eqn:Hok; [|discriminate].
    apply andb_true_iff in Hok as [Heq _]. apply bool_decide_eq_true in Heq.
    subst s'. injection Hstep as <-.
    destruct Hs as (_ & Hsweep & _); [done|].
    assert (Hin : s ∈ completed t).
    { assert (H : s ∈ filter (λ s, Is_true (to_reverse wf s)) (completed t)).
      { rewrite <- Hsweep, elem_of_app. right. apply list_elem_of_here. }
      by apply list_elem_of_filter in H as [_ H]. }
    unfold status_of in *. cbn [steps]. destruct ok; [|done].
    ins x s; [|done]. destruct (Hd _ Hin); unfold status_of in *; congruence.
  - destruct (_ && _); [|discriminate]. by injection Hstep as <-.
  - destruct (queue t) as [|s q]; [by injection Hstep as <-|].
    destruct (has_handler wf s); [discriminate|]. by injection Hstep as <-.
Qed.

Lemma failed_run sigs t t' x :
  inv wf t → run wf t sigs = Some t' →
  status_of t x = Failed → status_of t' x = Failed.
Proof.
  revert t. induction sigs as [|sig sigs IH]; intros t Hinv Hrun Hx.
  - by injection Hrun as <-.
  - cbn [run] in Hrun. destruct (engine_step wf t sig) as [t1|] eqn:Hstep;
      [|discriminate].
    eapply IH; [by eapply inv_step|exact Hrun|by eapply failed_step].
Qed.

(** A stopping transaction reaches the checkpoint whatever the outcomes
    of the attempts in flight. *)
Lemma drain outcome t :
  inv wf t → status t = INVOKING → stopping t = true →
  ∃ t1, run wf t (settle outcome (in_flight t)) = Some t1 ∧
        status t1 = COMPENSATING.
Proof.
  remember (in_flight t) as l eqn:Hl. revert t Hl.
  induction l as [|x l IH]; intros t Hl Hinv Hst Hstop.
  - destruct Hinv as [_ Hck]. by destruct (Hck Hst Hstop).
  - pose proof Hinv as [[_ _ _ _ Hnd _ _ _ _] _]. rewrite <- Hl in Hnd.
    apply NoDup_cons in Hnd as [Hx Hnd].
    assert (Hw : without x (x :: l) = l) by (by apply without_head).
    assert (Hstep : ∃ t0, engine_step wf t
                            (if outcome x then InvokeSucceeded x
                             else InvokeFailed x) = Some (checkpoint wf t0) ∧
                          status t0 = INVOKING ∧ stopping t0 = true ∧
                          in_flight t0 = l).
    { destruct (outcome x); unfold engine_step; rewrite Hst, <- Hl;
        rewrite bool_decide_eq_true_2 by apply list_elem_of_here.
      - eexists. split; [reflexivity|]. cbn [status stopping in_flight].
        by rewrite Hstop, Hw.
      - destruct (_ <? _)%nat; (eexists; split; [reflexivity|]);
          cbn [status stopping in_flight]; rewrite Hstop, Hw; done. }
    destruct Hstep as (t0 & Hstep & Hst0 & Hstop0 & Hfl0).
    cbn [settle fmap list_fmap run]. rewrite Hstep.
    pose proof (inv_step _ _ _ Hinv Hstep) as Hinv1.
    destruct l as [|y l].
    + exists (checkpoint wf t0). split; [done|].
      unfold checkpoint. rewrite Hstop0, Hfl0. by cbn.
    + assert (Hcp : checkpoint wf t0 = t0).
      { unfold checkpoint. rewrite Hstop0, Hfl0. by cbn. }
      rewrite Hcp in *. by apply IH.
Qed.

(** The sweep runs to REVERTED whatever the outcome of each
    compensation, when the queued steps have a compensate function. *)
Lemma sweep_runs ok t :
  status t = COMPENSATING →
  Forall (λ s, has_handler wf s = true) (queue t) →
  ∃ t', run wf t (sweep ok (queue t)) = Some t' ∧ status t' = REVERTED.
Proof.
  remember (queue t) as q eqn:Hq. revert t Hq.
  induction q as [|s q IH]; intros t Hq Hst Hh.
  - cbn [sweep fmap list_fmap app run]. unfold engine_step.
    rewrite Hst, <- Hq. eexists. by split.
  - apply Forall_cons in Hh as [Hs Hh].
    cbn [sweep fmap list_fmap app run]. unfold engine_step at 1.
    rewrite Hst, <- Hq, Hs, bool_decide_eq_true_2 by done. cbn [andb].
    apply IH; done.
Qed.

(** The settling of an attempt makes no compensate call. *)
Lemma settle_no_compensation outcome l t t' :
  run wf t (settle outcome l) = Some t' →
  compensations (trace t') = compensations (trace t).
Proof.
  revert t. induction l as [|x l IH]; intros t Hrun.
  - by injection Hrun as <-.
  - cbn [settle fmap list_fmap run] in Hrun.
    destruct (engine_step wf t _) as [t1|] eqn:Hstep; [|discriminate].
    rewrite (IH _ Hrun). clear IH Hrun.
    assert (Hcp : ∀ t0, compensations (trace (checkpoint wf t0))
                        = compensations (trace t0)).
    { intros t0. unfold checkpoint. destruct (_ && _); [|done].
      cbn [trace]. by tr_simpl. }
    unfold engine_step in Hstep.
    destruct (outcome x), (status t); try discriminate Hstep;
      (case_bool_decide; [|discriminate]).
    + injection Hstep as <-. rewrite Hcp. cbn [trace]. by tr_simpl.
    + destruct (_ <? _)%nat; injection Hstep as <-; by rewrite Hcp.
Qed.



End EngineFacts.


(** ** The data-flow graph builder *)

Section GraphFacts.

Import Graph.

Lemma build_cons s b :
  plan_edges (build (s :: b))
  = (calls_of s ≫= node_edges) ++ plan_edges (build b).
Proof. unfold build. cbn [plan_edges]. by rewrite bind_cons, bind_app. Qed.

Lemma elem_of_calls_of s n :
  n ∈ calls_of s ↔
  s = Single n ∨ ∃ args, s = Parallelize args ∧ Inline n ∈ args.
Proof.
  destruct s as [n'|args]; cbn [calls_of].
  - rewrite list_elem_of_singleton. split.
    + intros ->. by left.
    + intros [[= ->]|(? & [=] & _)]. done.
  - rewrite list_elem_of_omap. split.
    + intros ([n'|x] & Ha & [= ->]). right. eauto.
    + intros [[=]|(? & [= <-] & Hn)]. by exists (Inline n).
Qed.

Lemma call_in_calls b n : call_in b n ↔ n ∈ b ≫= calls_of.
Proof.
  rewrite list_elem_of_bind. split.
  - intros [n' Hs|n' args Hs Ha].
    + exists (Single n'). split; [|done]. apply elem_of_calls_of. by left.
    + exists (Parallelize args). split; [|done]. apply elem_of_calls_of.
      right. eauto.
  - intros (s & [->|(args & -> & Ha)]%elem_of_calls_of & Hs).
    + by apply call_single.
    + by eapply call_inline.
Qed.

Lemma well_scoped_cons bound s b :
  well_scoped bound (s :: b) = true →
  (∀ n r, n ∈ calls_of s → r ∈ reads n → r ∈ bound) ∧
  (∀ x, x ∈ names_of s → x ∉ bound) ∧
  NoDup (names_of s) ∧
  well_scoped (names_of s ++ bound) b = true.
Proof.
  cbn [well_scoped]. rewrite !andb_true_iff, !forallb_forall, bool_decide_eq_true.
  intros [[[[Hr _] Hb] Hnd] Hws]. split_and!; try done.
  - intros n r Hn Hrd. apply list_elem_of_In in Hn. specialize (Hr n Hn).
    rewrite forallb_forall in Hr. apply list_elem_of_In in Hrd.
    by apply (bool_decide_eq_true_1 _), Hr.
  - intros x Hx. apply list_elem_of_In in Hx.
    by apply (bool_decide_eq_true_1 _), Hb.
Qed.

Lemma edge_of_stmt s u v :
  (u, v) ∈ calls_of s ≫= node_edges ↔
  ∃ n, n ∈ calls_of s ∧ name n = v ∧ u ∈ reads n.
Proof.
  rewrite list_elem_of_bind. unfold node_edges. split.
  - intros (n & Huv & Hn). apply list_elem_of_fmap in Huv as (r & [= -> ->] & Hr).
    eauto.
  - intros (n & Hn & <- & Hu). exists n. split; [|done].
    apply list_elem_of_fmap. eauto.
Qed.

(** Names bound by the statements of a well-scoped body are new. *)
Lemma bound_later bound b s x :
  well_scoped bound b = true → s ∈ b → x ∈ names_of s → x ∉ bound.
Proof.
  revert bound. induction b as [|s0 b IH]; intros bound Hws Hs Hx.
  - by apply elem_of_nil in Hs.
  - apply well_scoped_cons in Hws as (_ & Hnew & _ & Hws).
    apply elem_of_cons in Hs as [->|Hs]; [by apply Hnew|].
    specialize (IH _ Hws Hs Hx). rewrite elem_of_app in IH. tauto.
Qed.

(** A well-scoped body binds every name once. *)
Lemma names_NoDup bound b :
  well_scoped bound b = true → NoDup (name <$> b ≫= calls_of).
Proof.
  revert bound. induction b as [|s b IH]; intros bound Hws; [constructor|].
  pose proof Hws as Hws0.
  apply well_scoped_cons in Hws as (_ & _ & Hnd & Hws).
  rewrite bind_cons, fmap_app. apply NoDup_app. split_and!.
  - exact Hnd.
  - intros x Hx Hin. apply list_elem_of_fmap in Hin as (n & -> & Hn).
    apply list_elem_of_bind in Hn as (s' & Hn & Hs').
    assert (Hx' : name n ∈ names_of s') by (apply list_elem_of_fmap; eauto).
    pose proof (bound_later _ _ _ _ Hws Hs' Hx') as Hnew.
    rewrite elem_of_app in Hnew. tauto.
  - by eapply IH.
Qed.

(** Every edge leads from a name bound outside, or from an earlier
    statement, to a later statement. *)
Lemma edges_forward bound b u v :
  well_scoped bound b = true →
  (u, v) ∈ plan_edges (build b) →
  (v ∉ bound) ∧ (∃ s, s ∈ b ∧ v ∈ names_of s) ∧
  (u ∈ bound ∨ level b u < level b v)%nat.
Proof.
  revert bound. induction b as [|s b IH]; intros bound Hws Huv.
  - by apply elem_of_nil in Huv.
  - pose proof Hws as Hws0.
    apply well_scoped_cons in Hws as (Hr & Hnew & _ & Hws).
    rewrite build_cons, elem_of_app in Huv. destruct Huv as [Huv|Huv].
    + apply edge_of_stmt in Huv as (n & Hn & <- & Hu).
      assert (Hv : name n ∈ names_of s) by (apply list_elem_of_fmap; eauto).
      split_and!; [by apply Hnew| |left; by eapply Hr].
      exists s. split; [apply list_elem_of_here|done].
    + destruct (IH _ Hws Huv) as (Hv & (s' & Hs' & Hvs') & Hu).
      rewrite elem_of_app in Hv.
      split_and!; [tauto| |].
      { exists s'. split; [by apply list_elem_of_further|done]. }
      cbn [level]. rewrite (bool_decide_eq_false_2 (v ∈ names_of s)) by tauto.
      case_bool_decide; [right; lia|].
      destruct Hu as [Hu|Hu]; [|right; lia].
      apply elem_of_app in Hu as [Hu|Hu]; [done|by left].
Qed.

Lemma depends_forward b u v :
  well_scoped [] b = true → depends (build b) u v → (level b u < level b v)%nat.
Proof.
  intros Hws. induction 1 as [u v Huv|u w v _ IH1 _ IH2]; [|lia].
  destruct (edges_forward [] b u v Hws Huv) as (_ & _ & [Hu|Hu]); [|done].
  by apply elem_of_nil in Hu.
Qed.

(** The names one statement binds sit at one level. *)
Lemma same_level bound b s x y :
  well_scoped bound b = true → s ∈ b → x ∈ names_of s → y ∈ names_of s →
  level b x = level b y.
Proof.
  revert bound. induction b as [|s0 b IH]; intros bound Hws Hs Hx Hy.
  - by apply elem_of_nil in Hs.
  - apply well_scoped_cons in Hws as (_ & _ & _ & Hws). cbn [level].
    apply elem_of_cons in Hs as [->|Hs].
    + by rewrite !bool_decide_eq_true_2.
    + pose proof (bound_later _ _ _ _ Hws Hs Hx) as Hx'.
      pose proof (bound_later _ _ _ _ Hws Hs Hy) as Hy'.
      rewrite elem_of_app in Hx', Hy'.
      rewrite !bool_decide_eq_false_2 by tauto. f_equal. by eapply IH.
Qed.



End GraphFacts.


(* ================================================================== *)
(** * Part III: further properties of the sources *)
(* ================================================================== *)

(** ** Errors of the JavaScript operators *)

Section ErrorFacts.

Lemma get_throws v k e : get v k = Throw e → is_TypeError e.
Proof. destruct v; simpl; try done; by intros [= <-]. Qed.

Lemma opt_get_throws v k e : opt_get v k = Throw e → False.
Proof. destruct (opt_get_total v k) as [x ->]. done. Qed.

Lemma get_index_throws v i e : get_index v i = Throw e → is_TypeError e.
Proof. destruct v; simpl; try done; by intros [= <-]. Qed.

Lemma as_array_throws v m e : as_array v m = Throw e → is_TypeError e.
Proof. destruct v; simpl; try done; by intros [= <-]. Qed.

Lemma mapM_Ok {A B} (f : A → result B) l r :
  mapM f l = Ok r ↔ Forall2 (λ x y, f x = Ok y) l r.
Proof.
  revert r. induction l as [|x l IH]; intros r; cbn [mapM].
  - split; [intros [= <-]; constructor|by inversion 1].
  - split.
    + intros (y & Hy & (ys & Hys & [= <-])%bind_Ok)%bind_Ok.
      constructor; [done|]. by apply IH.
    + inversion 1 as [|? y ? ys Hy Hys]; subst. rewrite Hy. js_simpl.
      apply IH in Hys. rewrite Hys. done.
Qed.

Lemma mapM_Throw {A B} (f : A → result B) l e :
  mapM f l = Throw e →
  ∃ pre x post, l = pre ++ x :: post ∧
                (∃ r, mapM f pre = Ok r) ∧ f x = Throw e.
Proof.
  induction l as [|x l IH]; cbn [mapM]; [done|].
  intros [Hx|(y & Hy & H)]%bind_Throw.
  - exists [], x, l. split_and!; [done|by exists []|done].
  - apply bind_Throw in H as [H|(ys & _ & [=])].
    destruct (IH H) as (pre & x' & post & -> & [r Hr] & Hx').
    exists (x :: pre), x', post. split_and!; [done| |done].
    exists (y :: r). cbn [mapM]. rewrite Hy. js_simpl. by rewrite Hr.
Qed.

End ErrorFacts.

(** Inversion of a transform that returned, or that threw. *)
Ltac inv_ok :=
  repeat match goal with
         | H : (_ ≫= _) = Ok _ |- _ =>
             let x := fresh "x" in
             let Hx := fresh "Hx" in
             apply bind_Ok in H as (x & Hx & H)
         | H : (if ?b then _ else _) = Ok _ |- _ => destruct b eqn:?
         | H : Ok _ = Ok _ |- _ => injection H as H; try subst
         | H : Throw _ = Ok _ |- _ => discriminate H
         end.

Ltac inv_throw :=
  repeat match goal with
         | H : (_ ≫= _) = Throw _ |- _ =>
             let x := fresh "x" in
             let Hx := fresh "Hx" in
             apply bind_Throw in H as [H | (x & Hx & H)]
         | H : (if ?b then _ else _) = Throw _ |- _ => destruct b eqn:?
         | H : Ok _ = Throw _ |- _ => discriminate H
         | H : get _ _ = Throw _ |- _ => apply get_throws in H
         | H : get_index _ _ = Throw _ |- _ => apply get_index_throws in H
         | H : as_array _ _ = Throw _ |- _ => apply as_array_throws in H
         | H : opt_get _ _ = Throw _ |- _ => by apply opt_get_throws in H
         end.

(** ** More on the transforms of the create-cart workflow *)

Section CreateCartMore.

Import CreateCart.

(** X1. Whatever its four inputs, the [cartInput] transform returns an
    object or throws; it throws the Medusa error NOT_FOUND with the
    message [No regions found] exactly when the region is falsy, and
    any other failure is a [TypeError] of a malformed input. *)
Theorem cartInput_errors (input region customerData salesChannel : value) :
  match cartInput input region customerData salesChannel with
  | Ok v => truthy region = true ∧ ∃ data_, v = VObj data_
  | Throw e =>
      if truthy region then is_TypeError e
      else e = MedusaError NOT_FOUND "No regions found"
  end.
Proof.
  destruct (cartInput _ _ _ _) as [v|e] eqn:H; unfold cartInput in H;
    destruct (truthy region); cbn [negb] in H; try done.
  - split; [done|]. inv_ok; eauto.
  - inv_throw; done.
  - by injection H as <-.
Qed.

(** X2. The cart the [cartInput] transform returns keeps every field of
    the input other than [currency_code], [region_id], [customer_id],
    [email], [sales_channel_id] and [shipping_address] as it was given,
    and its [sales_channel_id] is the resolved sales channel's id when
    that is truthy and the input's own otherwise. *)
Theorem cartInput_passes_input_through
    (input region customerData salesChannel : value) :
  match cartInput input region customerData salesChannel with
  | Ok v =>
      ∃ data_ scid,
        v = VObj data_ ∧
        opt_get salesChannel "id" = Ok scid ∧
        data_ !! "sales_channel_id"
        = (if truthy scid then Some scid
           else own_props input !! "sales_channel_id") ∧
        ∀ k, k ∉ cartInput_keys → data_ !! k = own_props input !! k
  | Throw _ => True
  end.
Proof.
  destruct (cartInput _ _ _ _) as [v|e] eqn:H; [|done]. unfold cartInput in H.
  destruct (truthy region); cbn [negb] in H; [|done].
  apply bind_Ok in H as (cc0 & _ & H). apply bind_Ok in H as (cc & _ & H).
  apply bind_Ok in H as (rid & _ & H). apply bind_Ok in H as (cust & _ & H).
  apply bind_Ok in H as (cid & _ & H). apply bind_Ok in H as (d1 & Hd1 & H).
  apply bind_Ok in H as (scid & Hsc & H). apply bind_Ok in H as (d2 & Hd2 & H).
  apply bind_Ok in H as (sa & _ & H). apply bind_Ok in H as (d3 & Hd3 & H).
  injection H as <-. exists d3, scid. split; [done|]. split; [done|].
  assert (H1 : ∀ k, k ≠ "customer_id" → k ≠ "email" → k ≠ "currency_code" →
               k ≠ "region_id" → d1 !! k = own_props input !! k).
  { intros k ? ? ? ?. inv_ok; by rewrite ?lookup_insert_ne by done. }
  assert (H2 : d2 !! "sales_channel_id"
               = (if truthy scid then Some scid else d1 !! "sales_channel_id") ∧
               ∀ k, k ≠ "sales_channel_id" → d2 !! k = d1 !! k).
  { destruct (truthy scid) eqn:Hts.
    - assert (nullish salesChannel = false) as Hn.
      { destruct (nullish salesChannel) eqn:Hn; [|done].
        unfold opt_get in Hsc. rewrite Hn in Hsc. by injection Hsc as <-. }
      unfold opt_get in Hsc. rewrite Hn in Hsc. rewrite Hsc in Hd2.
      injection Hd2 as <-. split; [by rewrite lookup_insert_eq|].
      intros k ?. by rewrite lookup_insert_ne.
    - by injection Hd2 as <-. }
  assert (H3 : ∀ k, k ≠ "shipping_address" → d3 !! k = d2 !! k).
  { intros k ?. inv_ok; by rewrite ?lookup_insert_ne by done. }
  destruct H2 as [H2s H2]. split.
  - rewrite H3, H2s by done. destruct (truthy scid); [done|]. by apply H1.
  - intros k Hk. unfold cartInput_keys in Hk.
    repeat (apply not_elem_of_cons in Hk as [? Hk]).
    rewrite H3, H2, H1 by done. done.
Qed.

(** X3. Whenever the [cartInput] transform returns, the [pricingContext]
    transform returns on the same input, region and customer, and the
    two agree on [currency_code] and [region_id]: the variants are priced
    in the currency and region of the cart that is created. *)
Theorem pricingContext_agrees_with_cartInput
    (input region customerData salesChannel : value) :
  match cartInput input region customerData salesChannel with
  | Ok v =>
      ∃ data_ pc,
        v = VObj data_ ∧
        pricingContext input region customerData = Ok (VObj pc) ∧
        pc !! "currency_code" = data_ !! "currency_code" ∧
        pc !! "region_id" = data_ !! "region_id"
  | Throw _ => True
  end.
Proof.
  destruct (cartInput _ _ _ _) as [v|e] eqn:H; [|done].
  unfold cartInput, pricingContext in *.
  destruct (truthy region); cbn [negb] in *; [|done].
  apply bind_Ok in H as (cc0 & E1 & H). apply bind_Ok in H as (cc & E2 & H).
  apply bind_Ok in H as (rid & E3 & H). apply bind_Ok in H as (cust & E4 & H).
  apply bind_Ok in H as (cid & E5 & H).
  rewrite E1. js_simpl. rewrite E2. js_simpl. rewrite E3. js_simpl.
  rewrite E4. js_simpl. rewrite E5. js_simpl.
  apply bind_Ok in H as (d1 & Hd1 & H).
  apply bind_Ok in H as (scid & Hsc & H). apply bind_Ok in H as (d2 & Hd2 & H).
  apply bind_Ok in H as (sa & _ & H). apply bind_Ok in H as (d3 & Hd3 & H).
  injection H as <-. eexists d3, _. split; [done|]. split; [done|].
  assert (H1 : d1 !! "currency_code" = Some cc ∧ d1 !! "region_id" = Some rid).
  { inv_ok; by simplify_map_eq. }
  assert (H2 : d2 !! "currency_code" = d1 !! "currency_code" ∧
               d2 !! "region_id" = d1 !! "region_id").
  { inv_ok; by simplify_map_eq. }
  assert (H3 : d3 !! "currency_code" = d2 !! "currency_code" ∧
               d3 !! "region_id" = d2 !! "region_id").
  { inv_ok; by simplify_map_eq. }
  destruct H1 as [H1c H1r], H2 as [H2c H2r], H3 as [H3c H3r].
  rewrite H3c, H3r, H2c, H2r, H1c, H1r. done.
Qed.

Variable isDefined : value → bool.
Variable prepareLineItemData : value → result value.

Lemma get_computed_total v k :
  nullish v = false → ∃ x, get_computed v k = Ok x.
Proof.
  intros Hn. unfold get_computed.
  destruct v; try done; destruct k; eauto using get_not_nullish.
Qed.

(** The search for the variant of an item succeeds on an array of
    objects: it yields the first variant whose id is the item's
    [variant_id], or [undefined]. *)
Lemma find_variant_total (vs : list value) (o : gmap string value) :
  Forall (λ v, nullish v = false) vs →
  ∃ variant,
    findM (λ v, vid ← get v "id";
                ivid ← get (VObj o) "variant_id";
                Ok (strict_eq vid ivid)) vs = Ok variant ∧
    (variant = VUndefined ∨ variant ∈ vs).
Proof.
  induction 1 as [|v vs Hv _ (variant & IH & Hin)]; cbn [findM].
  - exists VUndefined. by split; [|left].
  - destruct (get_not_nullish v "id" Hv) as [vid ->]. js_simpl.
    rewrite get_obj. js_simpl.
    destruct (strict_eq vid _).
    + exists v. split; [done|]. right. apply list_elem_of_here.
    + exists variant. split; [done|].
      destruct Hin as [->|Hin]; [by left|right; by apply list_elem_of_further].
Qed.

(** X4. A line item without a variant whose [unit_price] is falsy (absent,
    null or zero) is refused: the callback of the [lineItems] transform
    throws INVALID_DATA, [Line item missing a unit price], without
    calling [prepareLineItemData]; a custom item cannot be priced at
    zero. *)
Theorem lineItem_missing_unit_price (priceSets : value) (vs : list value)
    (o : gmap string value) :
  Forall (λ v, nullish v = false) vs →
  truthy (field o "variant_id") = false →
  truthy (field o "unit_price") = false →
  isDefined VUndefined = false →
  lineItem isDefined prepareLineItemData priceSets (VArr vs) (VObj o)
  = Throw (MedusaError INVALID_DATA "Line item missing a unit price").
Proof.
  intros Hvs Hvid Hup Hdef. unfold field in *. unfold lineItem.
  cbn [as_array]. js_simpl.
  destruct (find_variant_total vs o Hvs) as (variant & -> & _). js_simpl.
  rewrite !get_obj. js_simpl. rewrite Hvid. js_simpl. rewrite Hup.
  cbn [opt_get nullish]. js_simpl.
  destruct (truthy (default VUndefined (o !! "is_tax_inclusive")));
    js_simpl; by rewrite Hdef.
Qed.

(** The search for the variant of an item with the variant id [vid],
    among variants that are objects: the first one whose [id] is that
    string, or [undefined] when there is none. *)
Lemma find_first_variant (vos : list (gmap string value))
    (o : gmap string value) (vid : string) :
  o !! "variant_id" = Some (VStr vid) →
  ∃ variant,
    findM (λ v, vid' ← get v "id";
                ivid ← get (VObj o) "variant_id";
                Ok (strict_eq vid' ivid)) (VObj <$> vos) = Ok variant ∧
    ((∃ pre vo post,
        vos = pre ++ vo :: post ∧ variant = VObj vo ∧
        vo !! "id" = Some (VStr vid) ∧
        Forall (λ v, v !! "id" ≠ Some (VStr vid)) pre) ∨
     (variant = VUndefined ∧
      Forall (λ v, v !! "id" ≠ Some (VStr vid)) vos)).
Proof.
  intros Hvid. rewrite (get_obj o "variant_id"), Hvid.
  cbn [default from_option id].
  induction vos as [|vo vos (variant & IH & Hfirst)]; cbn [findM fmap list_fmap].
  - exists VUndefined. split; [done|]. right. by split.
  - rewrite get_obj. js_simpl.
    assert (Hid : strict_eq (default VUndefined (vo !! "id")) (VStr vid) = true
                  ↔ vo !! "id" = Some (VStr vid)).
    { destruct (vo !! "id") as [[]|]; cbn [default from_option id strict_eq];
        try (split; [discriminate|]; intros [=]).
      rewrite bool_decide_eq_true. split; [by intros ->|by intros [= ->]]. }
    destruct (strict_eq (default VUndefined (vo !! "id")) (VStr vid)) eqn:Heq.
    + apply proj1 in Hid. specialize (Hid eq_refl).
      exists (VObj vo). split; [done|]. left. exists [], vo, vos.
      by split_and!.
    + assert (vo !! "id" ≠ Some (VStr vid)) as Hne.
      { intros Hm. apply Hid in Hm. discriminate Hm. }
      exists variant. split; [exact IH|].
      destruct Hfirst as [(pre & vo' & post & -> & -> & Hm & Hpre)|[-> Hall]].
      * left. exists (vo :: pre), vo', post. split_and!; try done.
        by constructor.
      * right. split; [done|]. by constructor.
Qed.

(** X5. An item's own truthy [unit_price] takes precedence over the price
    calculated for its variant.  For an item whose [variant_id] is a
    non-empty string, over variants and price sets that are objects, the
    callback of the [lineItems] transform returns what
    [prepareLineItemData] gives for the item, that unit price, the first
    variant whose [id] is the item's [variant_id] ([undefined] when
    there is none) and, as [isTaxInclusive], the item's
    [is_tax_inclusive] when truthy and otherwise the
    [is_calculated_price_tax_inclusive] of the price set of that variant
    id ([undefined] when the price set is missing). *)
Theorem lineItem_own_price_first (ps : gmap string value)
    (vos : list (gmap string value)) (o : gmap string value) (vid : string) :
  o !! "variant_id" = Some (VStr vid) →
  vid ≠ EmptyString →
  truthy (field o "unit_price") = true →
  isDefined (field o "unit_price") = true →
  ∃ variant calculated isTaxInclusive,
    ((∃ pre vo post,
        vos = pre ++ vo :: post ∧ variant = VObj vo ∧
        vo !! "id" = Some (VStr vid) ∧
        Forall (λ v, v !! "id" ≠ Some (VStr vid)) pre) ∨
     (variant = VUndefined ∧
      Forall (λ v, v !! "id" ≠ Some (VStr vid)) vos)) ∧
    opt_get (field ps vid) "is_calculated_price_tax_inclusive"
    = Ok calculated ∧
    (ps !! vid = None → calculated = VUndefined) ∧
    (∀ price, ps !! vid = Some (VObj price) →
              calculated = field price "is_calculated_price_tax_inclusive") ∧
    isTaxInclusive
    = (if truthy (field o "is_tax_inclusive")
       then field o "is_tax_inclusive" else calculated) ∧
    lineItem isDefined prepareLineItemData (VObj ps) (VArr (VObj <$> vos))
             (VObj o)
    = prepareLineItemData
        (obj [("item", VObj o); ("unitPrice", field o "unit_price");
              ("isTaxInclusive", isTaxInclusive); ("variant", variant)]).
Proof.
  intros Hvid Hne Hup Hdef. unfold field in *. unfold lineItem.
  cbn [as_array]. js_simpl.
  destruct (find_first_variant vos o vid Hvid) as (variant & -> & Hfirst).
  js_simpl. rewrite !get_obj. js_simpl. rewrite Hvid.
  cbn [default from_option id truthy].
  assert (match vid with EmptyString => false | _ => true end = true) as ->
    by (by destruct vid).
  js_simpl. cbn [get_computed to_string]. rewrite get_obj. js_simpl.
  rewrite Hup. js_simpl.
  destruct (opt_get_total (default VUndefined (ps !! vid))
              "is_calculated_price_tax_inclusive") as [ti Hti].
  exists variant, ti.
  eexists (if truthy (default VUndefined (o !! "is_tax_inclusive"))
           then default VUndefined (o !! "is_tax_inclusive") else ti).
  split_and!; try done.
  - intros Hnone. rewrite Hnone in Hti. by injection Hti as <-.
  - intros price Hp. rewrite Hp in Hti. cbn in Hti. by injection Hti as <-.
  - destruct (truthy (default VUndefined (o !! "is_tax_inclusive"))) eqn:Hiti;
      js_simpl; rewrite ?Hti; js_simpl; rewrite Hdef; by cbn [negb].
Qed.

(** X7. The [variantIds] transform never throws a Medusa error; what it
    returns is an array of values that all pass [isDefined], no longer
    than the items, and the empty array when the input's [items] is null
    or undefined. *)
Theorem variantIds_defined (input : value) :
  match variantIds isDefined input with
  | Ok v =>
      ∃ items ids,
        get input "items" = Ok items ∧
        v = VArr ids ∧
        Forall (λ x, isDefined x = true) ids ∧
        (nullish items = true → ids = []) ∧
        (∀ l, items = VArr l → length ids ≤ length l)%nat
  | Throw e => is_TypeError e
  end.
Proof.
  destruct (variantIds _ _) as [v|e] eqn:H; unfold variantIds in H.
  - apply bind_Ok in H as (items & Hitems & H).
    apply bind_Ok in H as (l & Hl & H). apply bind_Ok in H as (ids & Hids & H).
    injection H as <-. exists items, (filter (λ v, Is_true (isDefined v)) ids).
    split_and!; try done.
    + apply Forall_forall. intros x [Hx _]%list_elem_of_filter.
      by apply Is_true_true.
    + intros Hn. unfold coalesce in Hl. rewrite Hn in Hl.
      injection Hl as <-. by injection Hids as <-.
    + intros l' ->. injection Hl as <-. apply mapM_Ok in Hids.
      rewrite (Forall2_length _ _ _ Hids). apply length_filter.
  - inv_throw; try done.
    apply mapM_Throw in H as (? & ? & ? & _ & _ & H). by inv_throw.
Qed.

End CreateCartMore.

Lemma lineItem_missing_unit_price_witness :
  CreateCart.lineItem CreateCart.not_undefined (λ v, Ok v) (VObj ∅)
    (VArr [obj [("id", VStr "variant_1")]])
    (obj [("title", VStr "Gift wrap"); ("quantity", VNum 1);
          ("unit_price", VNum 0)])
  = Throw (MedusaError INVALID_DATA "Line item missing a unit price").
Proof.
  apply (lineItem_missing_unit_price CreateCart.not_undefined (λ v, Ok v)).
  - repeat constructor.
  - vm_compute. reflexivity.
  - vm_compute. reflexivity.
  - reflexivity.
Defined.

Lemma lineItem_own_price_first_witness :
  let ps : gmap string value :=
    list_to_map
      [("variant_1", obj [("calculated_amount", VNum 900);
                          ("is_calculated_price_tax_inclusive", VBool true)])] in
  let vos : list (gmap string value) :=
    [list_to_map [("id", VStr "variant_0")];
     list_to_map [("id", VStr "variant_1")]] in
  let o : gmap string value :=
    list_to_map [("variant_id", VStr "variant_1"); ("unit_price", VNum 500)] in
  ∃ variant calculated isTaxInclusive,
    ((∃ pre vo post,
        vos = pre ++ vo :: post ∧ variant = VObj vo ∧
        vo !! "id" = Some (VStr "variant_1") ∧
        Forall (λ v, v !! "id" ≠ Some (VStr "variant_1")) pre) ∨
     (variant = VUndefined ∧
      Forall (λ v, v !! "id" ≠ Some (VStr "variant_1")) vos)) ∧
    opt_get (field ps "variant_1") "is_calculated_price_tax_inclusive"
    = Ok calculated ∧
    (ps !! "variant_1" = None → calculated = VUndefined) ∧
    (∀ price, ps !! "variant_1" = Some (VObj price) →
              calculated = field price "is_calculated_price_tax_inclusive") ∧
    isTaxInclusive
    = (if truthy (field o "is_tax_inclusive")
       then field o "is_tax_inclusive" else calculated) ∧
    CreateCart.lineItem CreateCart.not_undefined (λ v, Ok v)
      (VObj ps) (VArr (VObj <$> vos)) (VObj o)
    = Ok (obj [("item", VObj o); ("unitPrice", field o "unit_price");
               ("isTaxInclusive", isTaxInclusive); ("variant", variant)]).
Proof.
  intros ps vos o.
  apply (lineItem_own_price_first CreateCart.not_undefined (λ v, Ok v)
           ps vos o "variant_1").
  - vm_compute. reflexivity.
  - discriminate.
  - vm_compute. reflexivity.
  - vm_compute. reflexivity.
Defined.

(** ** The add-order-line-items workflow *)

Section AddLineItemsFacts.

Import AddLineItems.

(** X8. The object [prepareLineItems] hands to [prepareLineItemData] for an
    item has exactly the fields [variant], [taxLines] and [adjustments]:
    neither the item nor a unit price is passed on; [taxLines] and
    [adjustments] are always truthy, the item's own when truthy and the
    empty array otherwise.  Building it fails only with a [TypeError]. *)
Theorem prepareLineItem_input_fields (variants item : value) :
  match prepareLineItem_input variants item with
  | Ok v =>
      ∃ arg tl adj taxLines adjustments,
        v = VObj arg ∧
        get item "tax_lines" = Ok tl ∧
        get item "adjustments" = Ok adj ∧
        arg !! "taxLines" = Some taxLines ∧
        arg !! "adjustments" = Some adjustments ∧
        taxLines = (if truthy tl then tl else VArr []) ∧
        adjustments = (if truthy adj then adj else VArr []) ∧
        truthy taxLines = true ∧ truthy adjustments = true ∧
        ∀ k, is_Some (arg !! k) ↔ k ∈ ["variant"; "taxLines"; "adjustments"]
  | Throw e => is_TypeError e
  end.
Proof.
  destruct (prepareLineItem_input _ _) as [v|e] eqn:H;
    unfold prepareLineItem_input in H.
  - apply bind_Ok in H as (vs & _ & H). apply bind_Ok in H as (variant & _ & H).
    apply bind_Ok in H as (tl & Htl & H). apply bind_Ok in H as (adj & Hadj & H).
    unfold obj in H. injection H as <-. eexists _, tl, adj, _, _.
    split; [reflexivity|].
    unfold list_to_map; cbn [foldr fst snd]. split_and!; try done.
    + by destruct (truthy tl) eqn:E.
    + by destruct (truthy adj) eqn:E.
    + intros k.
      rewrite !elem_of_cons, elem_of_nil.
      destruct (decide (k = "variant")) as [->|];
        [rewrite lookup_insert_eq; split; eauto|].
      rewrite lookup_insert_ne by done.
      destruct (decide (k = "taxLines")) as [->|];
        [rewrite lookup_insert_eq; split; eauto|].
      rewrite lookup_insert_ne by done.
      destruct (decide (k = "adjustments")) as [->|];
        [rewrite lookup_insert_eq; split; eauto|].
      rewrite lookup_insert_ne, lookup_empty by done.
      split; [by intros [? ?]|]. intros [?|[?|[?|[]]]]; done.
  - inv_throw; try done.
    clear - H. revert H.
    induction x as [|v vs IH]; cbn [findM]; [done|].
    intros H. inv_throw; try done. by apply IH.
Qed.


(** X10. The pricing context of the add-line-items workflow: it throws
    NOT_FOUND, [Region not found], exactly when the region is falsy (any
    other failure is a [TypeError]); when it returns, its currency is the
    order's when that is neither null nor undefined and the region's
    otherwise, and its region is the resolved region's id. *)
Theorem order_pricingContext (region customerData order : value) :
  match pricingContext region customerData order with
  | Ok v =>
      truthy region = true ∧
      ∃ pc occ rcc rid,
        v = VObj pc ∧
        get order "currency_code" = Ok occ ∧
        (nullish occ = true → get region "currency_code" = Ok rcc) ∧
        pc !! "currency_code" = Some (if nullish occ then rcc else occ) ∧
        get region "id" = Ok rid ∧
        pc !! "region_id" = Some rid
  | Throw e =>
      if truthy region then is_TypeError e
      else e = MedusaError NOT_FOUND "Region not found"
  end.
Proof.
  destruct (pricingContext _ _ _) as [v|e] eqn:H; unfold pricingContext in H;
    destruct (truthy region); cbn [negb] in H; try done.
  - split; [done|].
    apply bind_Ok in H as (occ & Hocc & H). apply bind_Ok in H as (cc & Hcc & H).
    apply bind_Ok in H as (rid & Hrid & H). apply bind_Ok in H as (cust & _ & H).
    apply bind_Ok in H as (cid & _ & H). injection H as <-.
    destruct (nullish occ) eqn:Hn.
    + eexists _, occ, cc, rid. split; [reflexivity|]. rewrite Hn.
      split_and!; try done.
    + injection Hcc as <-. eexists _, occ, VUndefined, rid.
      split; [reflexivity|]. rewrite Hn. split_and!; try done.
  - inv_throw; done.
  - by injection H as <-.
Qed.

End AddLineItemsFacts.

(** ** More on [prepareCustomLineItemData] *)

Section CustomLineItemMore.

Import CustomLineItem.

Variable prepareTaxLinesData : value → result value.
Variable prepareAdjustmentsData : value → result value.

(** X11. The object [prepareCustomLineItemData] returns carries the
    item's [quantity] and [title] (undefined when the item is null or
    undefined, which does not throw) and has no field besides
    [quantity], [title], [metadata], [tax_lines] and [adjustments]. *)
Theorem prepareCustomLineItemData_shape (data : value) :
  match prepareCustomLineItemData prepareTaxLinesData prepareAdjustmentsData
          data with
  | Ok v =>
      ∃ o item quantity title,
        v = VObj o ∧
        get data "item" = Ok item ∧
        opt_get item "quantity" = Ok quantity ∧
        opt_get item "title" = Ok title ∧
        o !! "quantity" = Some quantity ∧
        o !! "title" = Some title ∧
        ∀ k, is_Some (o !! k) →
             k ∈ ["quantity"; "title"; "metadata"; "tax_lines"; "adjustments"]
  | Throw _ => True
  end.
Proof.
  destruct (prepareCustomLineItemData _ _ _) as [v|e] eqn:H; [|done].
  unfold prepareCustomLineItemData in H.
  apply bind_Ok in H as (item & Hitem & H). apply bind_Ok in H as (tl & _ & H).
  apply bind_Ok in H as (adj & _ & H). apply bind_Ok in H as (q & Hq & H).
  apply bind_Ok in H as (ti & Hti & H). apply bind_Ok in H as (md & _ & H).
  cbn zeta in H.
  apply bind_Ok in H as (o1 & Ho1 & H). apply bind_Ok in H as (o2 & Ho2 & H).
  injection H as <-. exists o2, item, q, ti. split_and!; try done.
  - inv_ok; by simplify_map_eq.
  - inv_ok; by simplify_map_eq.
  - intros k [x Hx]. rewrite !elem_of_cons, elem_of_nil.
    destruct (decide (k = "quantity")); [tauto|].
    destruct (decide (k = "title")); [tauto|].
    destruct (decide (k = "metadata")); [tauto|].
    destruct (decide (k = "tax_lines")); [tauto|].
    destruct (decide (k = "adjustments")); [tauto|].
    exfalso. inv_ok; by simplify_map_eq.
Qed.

End CustomLineItemMore.

(** ** More on the price-list repository *)

Section RepoMore.

Import Repo.

Variable SELECT_IN : value.
Variable em_find : manager → hval → gmap string hval → list PriceList.
Variable em_create : manager → value → result PriceList.
Variable em_assign : manager → PriceList → UpdatePriceListDTO → PriceList.
Variable getActiveManager : manager → Context → manager.
Variable manager_ : manager.

Abbreviation active ctx := (getActiveManager manager_ (default empty_context ctx)).
Abbreviation find' := (find SELECT_IN em_find getActiveManager manager_).
Abbreviation create' := (create em_create getActiveManager manager_).
Abbreviation update' :=
  (update SELECT_IN em_find em_assign getActiveManager manager_).
Abbreviation existing' :=
  (existing SELECT_IN em_find getActiveManager manager_).

(** The [manager.assign] calls of [update], one per entry and its row. *)
Abbreviation assigns m rows data :=
  ((λ rd : PriceList * UpdatePriceListDTO, (m, CAssign rd.1 rd.2))
     <$> zip rows data).

Ltac run_steps :=
  repeat first
    [ rewrite bind_run
    | rewrite lookup_insert_eq
    | rewrite lookup_insert_ne by done
    | progress cbn [mret M_ret alloc fields_of read_field write_field
                    object_assign deref emit throw heap calls default
                    from_option id hnullish nullish] ].

(** X12. [create] calls [manager.create] on the input elements in
    order, on the active manager, and stops at the first one on which it
    throws: it then throws that error without having called
    [persistAndFlush].  When none throws, it returns the entities built,
    one per input element in order, after one [persistAndFlush] call
    with exactly those entities (also for an empty input).  The heap is
    as it was. *)
Theorem create_persists_what_it_returns (data : list value)
    (ctx : option Context) (st : state) :
  let m := active ctx in
  ∃ pre ents,
    Forall2 (λ d p, em_create m d = Ok p) pre ents ∧
    ((pre = data ∧
      create' data ctx st
      = (Ok ents,
         mkState (heap st)
           (calls st ++ ((λ d, (m, CCreate d)) <$> data)
                     ++ [(m, CPersistAndFlush ents)])))
     ∨
     (∃ x post e,
        data = pre ++ x :: post ∧
        em_create m x = Throw e ∧
        create' data ctx st
        = (Throw e,
           mkState (heap st)
             (calls st ++ ((λ d, (m, CCreate d)) <$> pre ++ [x]))))).
Proof.
  intros m. unfold create. fold m. rewrite bind_run.
  destruct (create_map_run em_create m data st) as (pre & ents & Hpre & Hres).
  exists pre, ents. split; [done|].
  destruct (mapMM _ data st) as [[ps|e] st1].
  - destruct Hres as (-> & -> & ->). left. split; [done|].
    run_steps. by rewrite <- (assoc_L (++)).
  - destruct Hres as (x & post & -> & Hx & ->). right. by exists x, post, e.
Qed.

(** A row found in the map of the existing price lists is one of the
    rows and has the key as its id. *)
Lemma new_Map_lookup_Some (rows : list PriceList) k p :
  new_Map ((λ p, (pl_id p, p)) <$> rows) !! k = Some p →
  p ∈ rows ∧ pl_id p = k.
Proof.
  unfold new_Map.
  assert (H : ∀ m : gmap string PriceList,
            foldl (λ m kv, <[kv.1 := kv.2]> m) m
                  ((λ p, (pl_id p, p)) <$> rows) !! k = Some p →
            m !! k = Some p ∨ (p ∈ rows ∧ pl_id p = k)).
  { induction rows as [|r rows IH]; intros m; cbn [foldl fmap list_fmap].
    - by left.
    - intros [Hm|[Hin E]]%IH.
      + cbn [fst snd] in Hm. apply lookup_insert_Some in Hm as [[<- <-]|[_ Hm]].
        * right. split; [apply list_elem_of_here|done].
        * by left.
      + right. split; [by apply list_elem_of_further|done]. }
  intros [Hm|Hr]%H; [by rewrite lookup_empty in Hm|done].
Qed.

(** The calls of the [data.map(...)] of [update]: [assign] on every
    entry before the first one that has no row, and nothing else. *)
Lemma assign_existing_trace (m : manager) (emap : gmap string PriceList)
    (data : list UpdatePriceListDTO) st :
  ∃ pre rows,
    Forall2 (λ d row, emap !! upd_id d = Some row) pre rows ∧
    heap (mapMM (assign_existing em_assign m emap) data st).2 = heap st ∧
    calls (mapMM (assign_existing em_assign m emap) data st).2
    = calls st ++ assigns m rows pre ∧
    match (mapMM (assign_existing em_assign m emap) data st).1 with
    | Ok ents => pre = data ∧ ents = zip_with (em_assign m) rows data
    | Throw e =>
        ∃ d post,
          data = pre ++ d :: post ∧
          emap !! upd_id d = None ∧
          e = MedusaError NOT_FOUND (not_found_message (upd_id d))
    end.
Proof.
  revert st. induction data as [|d data IH]; intros st.
  - exists [], []. cbn [mapMM fst snd mret M_ret zip zip_with fmap list_fmap].
    rewrite (right_id_L [] (++)). split_and!; try done.
  - rewrite assign_existing_cons.
    destruct (emap !! upd_id d) as [p|] eqn:Hd.
    + destruct (IH (mkState (heap st) (calls st ++ [(m, CAssign p d)])))
        as (pre & rows & Hrows & Hh & Hc & Hres).
      destruct (mapMM _ data _) as [[ents|e] st2]; cbn [fst snd heap calls] in *.
      * destruct Hres as [-> ->]. exists (d :: data), (p :: rows).
        split_and!; try done.
        -- by constructor.
        -- rewrite Hc, <- (assoc_L (++)). done.
      * destruct Hres as (d' & post & -> & Hnone & ->).
        exists (d :: pre), (p :: rows). split_and!; try done.
        -- by constructor.
        -- rewrite Hc, <- (assoc_L (++)). done.
        -- by exists d', post.
    + cbn [fst snd]. exists [], [].
      cbn [zip zip_with fmap list_fmap]. rewrite (right_id_L [] (++)).
      split_and!; try done. by exists d, data.
Qed.

(** The prologue of [update]: one [find] for the ids of the data, on
    find options of its own; no object the caller holds is touched. *)
Lemma update_prologue data ctx st :
  ∃ lo st1,
    (∀ l, is_Some (heap st !! l) → heap st1 !! l = heap st !! l) ∧
    calls st1
    = calls st ++
      [(active ctx,
        CFind (HVal (id_in (upd_id <$> data))) (HRef lo)
              {["strategy" := HVal SELECT_IN]})] ∧
    update' data ctx st
    = (moneyAmounts ←
         mapMM (assign_existing em_assign (active ctx)
                  (new_Map ((λ p, (pl_id p, p)) <$> existing' data ctx)))
               data;
       _ ← emit (active ctx) (CPersist moneyAmounts);
       mret moneyAmounts) st1.
Proof.
  unfold update. rewrite bind_run. cbn [alloc].
  set (l0 := fresh (dom (heap st))). set (st0 := mkState _ _).
  assert (Hl0 : heap st !! l0 = None) by apply not_elem_of_dom, is_fresh.
  assert (Hfields : caller_fields st0 (Some l0)
                    = {["where" := HVal (id_in (upd_id <$> data))]}).
  { cbn [caller_fields st0 heap]. by rewrite lookup_insert_eq. }
  destruct (prepare_find_options_spec SELECT_IN (Some l0) st0)
    as (opts & st1 & Hrun & _ & Hty).
  destruct Hty as (lo & o & -> & Hlo & _ & _ & Ho & Hframe).
  { unfold options_typed. by rewrite Hfields. }
  rewrite Hfields in Ho, Hframe. specialize (Ho eq_refl). subst o.
  destruct (find_run SELECT_IN em_find getActiveManager manager_
              (Some l0) ctx st0)
    as (opts' & seen & st1' & st' & Hrun' & Hderef & Hfind & Hheap & Hcalls).
  rewrite Hrun in Hrun'. injection Hrun' as <- <-.
  unfold deref, fields_of in Hderef. rewrite Hlo in Hderef.
  injection Hderef as <-.
  rewrite Hfields in Hfind, Hcalls. rewrite lookup_singleton_eq in Hfind, Hcalls.
  cbn [default from_option id] in Hfind, Hcalls.
  exists lo, st'. split_and!.
  - intros l [x Hx]. assert (l ≠ l0) by congruence.
    rewrite Hheap, Hframe;
      [unfold st0; cbn [heap]; by rewrite lookup_insert_ne| |done].
    unfold st0; cbn [heap]. rewrite lookup_insert_ne by done. eauto.
  - exact Hcalls.
  - rewrite bind_run, Hfind. done.
Qed.


(** X14. When some id of the data has no existing price list, [update]
    has, by the time it throws, already called [manager.assign] on every
    entry before the first missing one, each with the found row of its
    id: its manager calls are the one [find] and those [assign] calls,
    in order, and nothing else.  The update is not all-or-nothing on the
    entities. *)
Theorem update_assigns_before_it_throws (data : list UpdatePriceListDTO)
    (ctx : option Context) (st : state) (missing : UpdatePriceListDTO) :
  missing ∈ data →
  upd_id missing ∉ pl_id <$> existing' data ctx →
  let m := active ctx in
  ∃ pre d post rows lo st',
    data = pre ++ d :: post ∧
    (upd_id d ∉ pl_id <$> existing' data ctx) ∧
    Forall2 (λ d' row, row ∈ existing' data ctx ∧ pl_id row = upd_id d')
            pre rows ∧
    update' data ctx st
    = (Throw (MedusaError NOT_FOUND (not_found_message (upd_id d))), st') ∧
    calls st'
    = calls st
      ++ [(m, CFind (HVal (id_in (upd_id <$> data))) (HRef lo)
                    {["strategy" := HVal SELECT_IN]})]
      ++ assigns m rows pre.
Proof.
  intros Hin Hmiss m.
  destruct (update_prologue data ctx st) as (lo & st1 & Hframe & Hc1 & ->).
  set (emap := new_Map ((λ p, (pl_id p, p)) <$> existing' data ctx)).
  assert (Hemap : ∀ k, emap !! k = None ↔ k ∉ pl_id <$> existing' data ctx).
  { intros k. unfold emap. rewrite new_Map_lookup_None.
    by rewrite <- list_fmap_compose. }
  destruct (assign_existing_trace (active ctx) emap data st1)
    as (pre & rows & Hrows & Hh & Hc & Hres).
  rewrite bind_run.
  destruct (mapMM _ data st1) as [[ents|e] st2]; cbn [fst snd] in *.
  - exfalso. destruct Hres as [-> _].
    apply list_elem_of_lookup in Hin as [i Hi].
    destruct (Forall2_lookup_l _ _ _ _ _ Hrows Hi) as (row & _ & Hrow).
    apply Hemap in Hmiss. congruence.
  - destruct Hres as (d & post & Hdata & Hnone & ->).
    exists pre, d, post, rows, lo, st2. split_and!.
    + done.
    + by apply Hemap.
    + eapply Forall2_impl; [exact Hrows|]. intros d' row Hd.
      by apply new_Map_lookup_Some in Hd.
    + done.
    + fold m. rewrite Hc, Hc1, <- !(assoc_L (++)). done.
Qed.

(** X15. [find] works on a copy of the caller's find options: with
    well-typed options, no object that exists before the call is
    modified by it, the caller's options object apart.  In particular
    the find-options object itself keeps its fields, and one without
    [options] is not given any. *)
Theorem find_modifies_only_the_options (fo : option loc)
    (ctx : option Context) (st : state) (l : loc) :
  options_typed (heap st) (caller_fields st fo) →
  is_Some (heap st !! l) →
  caller_fields st fo !! "options" ≠ Some (HRef l) →
  heap (find' fo ctx st).2 !! l = heap st !! l.
Proof.
  intros Hty Hl Hne.
  destruct (prepare_find_options_spec SELECT_IN fo st)
    as (opts & st1 & Hrun & _ & Htyped).
  destruct (Htyped Hty) as (lo & o & -> & _ & _ & _ & _ & Hframe).
  destruct (find_run SELECT_IN em_find getActiveManager manager_ fo ctx st)
    as (opts' & seen & st1' & st' & Hrun' & _ & Hfind & Hheap & _).
  rewrite Hrun in Hrun'. injection Hrun' as <- <-.
  rewrite Hfind. cbn [snd]. rewrite Hheap. by apply Hframe.
Qed.

(** X16. [find()] without find options queries with the empty filter
    [{}] and an options object that holds the [SELECT_IN] strategy and
    nothing else; it returns the manager's answer to that query, makes
    no other call and modifies no existing object. *)
Theorem find_default_query (ctx : option Context) (st : state) :
  let m := active ctx in
  let only := {["strategy" := HVal SELECT_IN]} in
  ∃ lo st',
    find' None ctx st = (Ok (em_find m (HVal (VObj ∅)) only), st') ∧
    calls st' = calls st ++ [(m, CFind (HVal (VObj ∅)) (HRef lo) only)] ∧
    heap st' !! lo = Some only ∧
    ∀ l, is_Some (heap st !! l) → heap st' !! l = heap st !! l.
Proof.
  intros m only.
  destruct (prepare_find_options_spec SELECT_IN None st)
    as (opts & st1 & Hrun & _ & Htyped).
  destruct Htyped as (lo & o & -> & Hlo & _ & _ & Ho & Hframe); [done|].
  specialize (Ho eq_refl). subst o.
  destruct (find_run SELECT_IN em_find getActiveManager manager_ None ctx st)
    as (opts' & seen & st1' & st' & Hrun' & Hderef & Hfind & Hheap & Hcalls).
  rewrite Hrun in Hrun'. injection Hrun' as <- <-.
  unfold deref, fields_of in Hderef. rewrite Hlo in Hderef.
  injection Hderef as <-.
  exists lo, st'. rewrite Hheap. split_and!; try done.
  intros l Hl. by apply Hframe.
Qed.

(** X17. Calling [find] twice with the same find options, whose
    [options] is an object, runs the same query twice: the second call
    sees the filter and the options fields the first one saw, on the
    same options object, so the forced strategy is written once and
    nothing accumulates. *)
Theorem find_twice_same_query (fo lo0 : loc) (o0 : gmap string hval)
    (ctx1 ctx2 : option Context) (st : state) :
  default ∅ (heap st !! fo) !! "options" = Some (HRef lo0) →
  heap st !! lo0 = Some o0 →
  is_Some (heap st !! fo) →
  lo0 ≠ fo →
  ∃ where_ st1 st2,
    let seen := <["strategy" := HVal SELECT_IN]> o0 in
    find' (Some fo) ctx1 st
    = (Ok (em_find (active ctx1) where_ seen), st1) ∧
    find' (Some fo) ctx2 st1
    = (Ok (em_find (active ctx2) where_ seen), st2) ∧
    calls st2
    = calls st ++ [(active ctx1, CFind where_ (HRef lo0) seen);
                   (active ctx2, CFind where_ (HRef lo0) seen)] ∧
    heap st2 !! lo0 = Some seen.
Proof.
  intros Hopt Ho0 Hfo Hne.
  assert (Hstep : ∀ st o,
            default ∅ (heap st !! fo) !! "options" = Some (HRef lo0) →
            heap st !! lo0 = Some o → is_Some (heap st !! fo) →
            ∀ ctx, ∃ st',
              let seen := <["strategy" := HVal SELECT_IN]> o in
              let where_ := default (HVal VUndefined)
                              (default ∅ (heap st !! fo) !! "where") in
              find' (Some fo) ctx st = (Ok (em_find (active ctx) where_ seen), st') ∧
              calls st' = calls st ++ [(active ctx, CFind where_ (HRef lo0) seen)] ∧
              heap st' !! lo0 = Some seen ∧
              heap st' !! fo = heap st !! fo).
  { clear st Hopt Ho0 Hfo. intros st o Hopt Ho Hfo ctx.
    destruct (prepare_find_options_spec SELECT_IN (Some fo) st)
      as (opts & st1 & Hrun & _ & Htyped).
    cbn [caller_fields] in *.
    destruct Htyped as (lo & o' & -> & Hlo & _ & Hown & _ & Hframe).
    { unfold options_typed. rewrite Hopt. eauto. }
    destruct (Hown lo0 o Hopt Ho) as [-> ->].
    destruct (find_run SELECT_IN em_find getActiveManager manager_
                (Some fo) ctx st)
      as (opts' & seen & st1' & st' & Hrun' & Hderef & Hfind & Hheap & Hcalls).
    rewrite Hrun in Hrun'. injection Hrun' as <- <-.
    unfold deref, fields_of in Hderef. rewrite Hlo in Hderef.
    injection Hderef as <-. cbn [caller_fields] in *.
    exists st'. rewrite Hheap. split_and!; try done.
    apply Hframe; [done|]. rewrite Hopt. congruence. }
  destruct (Hstep st o0 Hopt Ho0 Hfo ctx1) as (st1 & Hf1 & Hc1 & Hlo1 & Hfo1).
  destruct (Hstep st1 (<["strategy" := HVal SELECT_IN]> o0))
    with (ctx := ctx2) as (st2 & Hf2 & Hc2 & Hlo2 & _).
  { by rewrite Hfo1. } { done. } { by rewrite Hfo1. }
  rewrite insert_insert_eq in Hf2, Hc2, Hlo2. rewrite Hfo1 in Hf2, Hc2.
  eexists _, st1, st2. split_and!; try done.
  rewrite Hc2, Hc1, <- (assoc_L (++)). done.
Qed.

End RepoMore.


(** X14 at work: the second entry is missing, the first has been
    assigned. *)
Lemma update_assigns_before_it_throws_witness :
  let data := [Repo.mkUpdate "pl_1" ∅; Repo.mkUpdate "pl_2" ∅] in
  let st := Repo.mkState ∅ [] in
  ∃ pre d post rows lo st',
    data = pre ++ d :: post ∧
    (Repo.upd_id d ∉ Repo.pl_id <$> [Repo.mkPriceList "pl_1" ∅]) ∧
    Forall2 (λ d' row, row ∈ [Repo.mkPriceList "pl_1" ∅] ∧
                       Repo.pl_id row = Repo.upd_id d') pre rows ∧
    Repo.update Repo.select_in RepoSample.one_row Repo.assign_fields
      Repo.context_manager 0%nat data None st
    = (Throw (MedusaError NOT_FOUND (Repo.not_found_message (Repo.upd_id d))),
       st') ∧
    Repo.calls st'
    = Repo.calls st
      ++ [(0%nat, Repo.CFind (Repo.HVal (Repo.id_in ["pl_1"; "pl_2"]))
                    (Repo.HRef lo)
                    {["strategy" := Repo.HVal Repo.select_in]})]
      ++ ((λ rd : Repo.PriceList * Repo.UpdatePriceListDTO,
             (0%nat, Repo.CAssign rd.1 rd.2)) <$> zip rows pre).
Proof.
  intros data st.
  apply (update_assigns_before_it_throws Repo.select_in RepoSample.one_row
           Repo.assign_fields Repo.context_manager 0%nat data None st
           (Repo.mkUpdate "pl_2" ∅)).
  - apply list_elem_of_further, list_elem_of_here.
  - cbn. intros H. apply list_elem_of_singleton in H. discriminate H.
Defined.

(** X15 at work: the caller's find-options object is as it was. *)
Lemma find_modifies_only_the_options_witness :
  Repo.heap (Repo.find Repo.select_in Repo.no_rows Repo.context_manager 0%nat
               (Some 1%positive) None
               (Repo.mkState Repo.caller_heap [])).2 !! 1%positive
  = Repo.caller_heap !! 1%positive.
Proof.
  apply (find_modifies_only_the_options Repo.select_in Repo.no_rows
           Repo.context_manager 0%nat (Some 1%positive) None
           (Repo.mkState Repo.caller_heap []) 1%positive).
  - vm_compute. eauto.
  - vm_compute. eauto.
  - vm_compute. discriminate.
Defined.

(** X17 at work, on the caller's heap. *)
Lemma find_twice_same_query_witness :
  ∃ where_ st1 st2,
    let seen := <["strategy" := Repo.HVal Repo.select_in]>
                  ({["strategy" := Repo.HVal (VStr "joined");
                     "limit" := Repo.HVal (VNum 10)]}
                   : gmap string Repo.hval) in
    Repo.find Repo.select_in Repo.no_rows Repo.context_manager 0%nat
      (Some 1%positive) None (Repo.mkState Repo.caller_heap [])
    = (Ok (Repo.no_rows 0%nat where_ seen), st1) ∧
    Repo.find Repo.select_in Repo.no_rows Repo.context_manager 0%nat
      (Some 1%positive) None st1
    = (Ok (Repo.no_rows 0%nat where_ seen), st2) ∧
    Repo.calls st2
    = [] ++ [(0%nat, Repo.CFind where_ (Repo.HRef 2%positive) seen);
             (0%nat, Repo.CFind where_ (Repo.HRef 2%positive) seen)] ∧
    Repo.heap st2 !! 2%positive = Some seen.
Proof.
  apply (find_twice_same_query Repo.select_in Repo.no_rows
           Repo.context_manager 0%nat 1%positive 2%positive _ None None
           (Repo.mkState Repo.caller_heap [])).
  - vm_compute. reflexivity.
  - vm_compute. reflexivity.
  - vm_compute. eauto.
  - discriminate.
Defined.

(** ** More on the request body of the step-success operation *)

Section OasMore.

Import Oas OasSample.

(** X18. The request body documented by the operation's own cURL
    sample is not a valid request body: an object with no field besides
    [transaction_id] and [step_id], whatever their values, fails the
    schema, as [response], [compensate_input] and [action] are
    required. *)
Theorem two_field_body_is_invalid (o : gmap string value) :
  (∀ k, is_Some (o !! k) → k ∈ ["transaction_id"; "step_id"]) →
  validate requestBody (VObj o) = false.
Proof.
  intros Hdom. cbn [validate requestBody forallb].
  destruct (o !! "response") as [x|] eqn:Hx.
  - assert (H : "response" ∈ ["transaction_id"; "step_id"]) by (apply Hdom; eauto).
    rewrite !elem_of_cons, elem_of_nil in H. by destruct H as [?|[?|[]]].
  - rewrite (bool_decide_eq_false_2 (is_Some None)) by (by intros [? ?]).
    by rewrite !andb_false_r.
Qed.

End OasMore.

(** X18 at work, on the body of the cURL sample. *)
Lemma two_field_body_is_invalid_witness :
  Oas.validate Oas.requestBody OasSample.sample_body = false.
Proof.
  apply (two_field_body_is_invalid (own_props OasSample.sample_body)).
  intros k. unfold OasSample.sample_body, obj, own_props, list_to_map.
  cbn [foldr fst snd]. rewrite !elem_of_cons, elem_of_nil.
  destruct (decide (k = "transaction_id")) as [->|]; [by left|].
  rewrite lookup_insert_ne by done.
  destruct (decide (k = "step_id")) as [->|]; [by right; left|].
  rewrite lookup_insert_ne, lookup_empty by done. by intros [? ?].
Defined.

